(** * Sphere tracing of a noise-displaced sphere: model and verification

    A shallow embedding of [lol.cpp], the numeric core from the vector
    algebra up to the 8-bit pixel buffer, without the SDL window code of
    [main].

    Numbers.  The C++ type [float] is modelled by the real numbers [R]:
    every arithmetic operation is the exact one, so rounding, infinities
    and NaN are outside the model, and a decimal literal denotes its
    decimal value.  This is the level at which the specification fixes the
    numeric behaviour (the algorithmic structure, not the float values).
    [std::sqrt], [sin], [tan] and [floor] are the functions of the same
    name on [R]; [std::max] and [std::min] are [Rmax] and [Rmin].

    Integers.  [int] and [size_t] values are integers in [Z]; signed
    overflow is undefined behaviour, the conversion of an [int] to [size_t]
    is reduction modulo [2 ^ 64], and [std::vector] is a list indexed
    through [load] and [store], which leave the defined behaviour when the
    index is past the end. *)

From Stdlib Require Import Reals Lra Lia ZArith Psatz.
From stdpp Require Import base list.

Local Open Scope R_scope.

(** ** VectorMath *)

Record Vec3f : Type := { x : R; y : R; z : R }.

Definition make_vec3f (a b c : R) : Vec3f := {| x := a; y := b; z := c |}.

Definition vec3f_dot (a b : Vec3f) : R :=
  a.(x) * b.(x) + a.(y) * b.(y) + a.(z) * b.(z).

Definition vec3f_add (a b : Vec3f) : Vec3f :=
  {| x := a.(x) + b.(x); y := a.(y) + b.(y); z := a.(z) + b.(z) |}.

Definition vec3f_sub (a b : Vec3f) : Vec3f :=
  {| x := a.(x) - b.(x); y := a.(y) - b.(y); z := a.(z) - b.(z) |}.

Definition vec3f_scale (v : Vec3f) (scalar : R) : Vec3f :=
  {| x := v.(x) * scalar; y := v.(y) * scalar; z := v.(z) * scalar |}.

Definition vec3f_norm (v : Vec3f) : R :=
  sqrt (v.(x) * v.(x) + v.(y) * v.(y) + v.(z) * v.(z)).

(** [n > 0 ? make_vec3f(v.x / n, v.y / n, v.z / n) : make_vec3f(0, 0, 0)] *)
Definition vec3f_normalize (v : Vec3f) : Vec3f :=
  let n := vec3f_norm v in
  if Rlt_dec 0 n then make_vec3f (v.(x) / n) (v.(y) / n) (v.(z) / n)
  else make_vec3f 0 0 0.

Definition sphere_radius : R := 1.5.
Definition noise_amplitude : R := 1.0.

(** [v0 + (v1 - v0) * std::max(0.f, std::min(1.f, t))], used at [T = float]. *)
Definition lerp (v0 v1 t : R) : R :=
  v0 + (v1 - v0) * Rmax 0 (Rmin 1 t).

(** ** NoisePrimitive *)

Definition floor (r : R) : R := IZR (Zfloor r).

Definition hash (n : R) : R :=
  sin n * 43758.5453 - floor (sin n * 43758.5453).

Definition noise (x0 : Vec3f) : R :=
  let p := {| x := floor x0.(x); y := floor x0.(y); z := floor x0.(z) |} in
  let f := {| x := x0.(x) - p.(x); y := x0.(y) - p.(y); z := x0.(z) - p.(z) |} in
  let f := vec3f_scale f
             (vec3f_dot f (vec3f_sub {| x := 3; y := 3; z := 3 |} (vec3f_scale f 2))) in
  let n := vec3f_dot p {| x := 1; y := 57; z := 113 |} in
  lerp
    (lerp (lerp (hash (n + 0)) (hash (n + 1)) f.(x))
          (lerp (hash (n + 57)) (hash (n + 58)) f.(x)) f.(y))
    (lerp (lerp (hash (n + 113)) (hash (n + 114)) f.(x))
          (lerp (hash (n + 170)) (hash (n + 171)) f.(x)) f.(y))
    f.(z).

(** ** FractalNoise *)

Definition rotate (v : Vec3f) : Vec3f :=
  {| x := vec3f_dot {| x := 0.00; y := 0.80; z := 0.60 |} v;
     y := vec3f_dot {| x := -0.80; y := 0.36; z := -0.48 |} v;
     z := vec3f_dot {| x := -0.60; y := -0.48; z := 0.64 |} v |}.

Definition fractal_brownian_motion (x0 : Vec3f) : R :=
  let p := rotate x0 in
  let f := 0 in
  let f := f + 0.5000 * noise p in let p := vec3f_scale p 2.32 in
  let f := f + 0.2500 * noise p in let p := vec3f_scale p 3.03 in
  let f := f + 0.1250 * noise p in let p := vec3f_scale p 2.61 in
  let f := f + 0.0625 * noise p in
  f / 0.9375.

(** ** DistanceField *)

Definition signed_distance (p : Vec3f) : R :=
  let displacement := - fractal_brownian_motion (vec3f_scale p 3.4) * noise_amplitude in
  vec3f_norm p - (sphere_radius + displacement).

Definition distance_field_normal (pos : Vec3f) : Vec3f :=
  let eps := 0.1 in
  let d := signed_distance pos in
  let nx := signed_distance (vec3f_add pos {| x := eps; y := 0; z := 0 |}) - d in
  let ny := signed_distance (vec3f_add pos {| x := 0; y := eps; z := 0 |}) - d in
  let nz := signed_distance (vec3f_add pos {| x := 0; y := 0; z := eps |}) - d in
  vec3f_normalize {| x := nx; y := ny; z := nz |}.

(** ** RayMarcher *)

(** The update at the end of the loop body:
    [pos = vec3f_add(pos, vec3f_scale(dir, std::max(d * 0.1f, 0.01f)))]. *)
Definition trace_step (dir pos : Vec3f) : Vec3f :=
  vec3f_add pos (vec3f_scale dir (Rmax (signed_distance pos * 0.1) 0.01)).

(** The [for] loop with [n] iterations left. *)
Fixpoint trace_loop (n : nat) (dir pos : Vec3f) : option Vec3f :=
  match n with
  | O => None
  | S n' =>
      let d := signed_distance pos in
      if Rlt_dec d 0 then Some pos
      else trace_loop n' dir (trace_step dir pos)
  end.

Definition sphere_trace (orig dir : Vec3f) : option Vec3f :=
  trace_loop 128 dir orig.

(** ** Outcomes of the buffer-handling code

    [render_framebuffer] and [convert_framebuffer_to_pixels] multiply [int]s,
    construct a [std::vector] and index it with [operator[]].  A call either
    returns, or leaves through the [std::length_error] of the vector
    constructor, or has undefined behaviour (signed overflow, an index past
    the end).  Memory is taken to be sufficient, so no [std::bad_alloc]. *)

Inductive outcome (A : Type) : Type :=
| Returned (a : A)
| Thrown_length_error
| Undefined.

Arguments Returned {A} a.
Arguments Thrown_length_error {A}.
Arguments Undefined {A}.

#[global] Instance outcome_ret : MRet outcome := fun A a => Returned a.

#[global] Instance outcome_bind : MBind outcome := fun A B k m =>
  match m with
  | Returned a => k a
  | Thrown_length_error => Thrown_length_error
  | Undefined => Undefined
  end.

(** [int] is 32 bits wide, [size_t] 64. *)
Definition int_min : Z := (- 2 ^ 31)%Z.
Definition int_max : Z := (2 ^ 31 - 1)%Z.

Definition int_mul (a b : Z) : outcome Z :=
  if decide (int_min <= a * b <= int_max)%Z then Returned (a * b)%Z else Undefined.

(** Conversion of an [int] to [size_t]: reduction modulo [2 ^ 64]. *)
Definition to_size_t (n : Z) : Z := (n mod 2 ^ 64)%Z.

(** [std::vector<T> v(n)] for an [int] expression [n] and elements of
    [elem_size] bytes: [n] is converted to [size_t]; a size above
    [max_size()], which is [PTRDIFF_MAX / sizeof(T)], throws, otherwise
    there are [n] value-initialised elements. *)
Definition vector_new {A : Type} (elem_size : Z) (init : A) (n : Z) : outcome (list A) :=
  if decide (to_size_t n <= (2 ^ 63 - 1) / elem_size)%Z
  then Returned (replicate (Z.to_nat (to_size_t n)) init)
  else Thrown_length_error.

(** [v[idx]] as an rvalue and [v[idx] = a], for a [size_t] index. *)
Definition load {A : Type} (v : list A) (idx : Z) : outcome A :=
  match v !! Z.to_nat idx with
  | Some a => Returned a
  | None => Undefined
  end.

Definition store {A : Type} (v : list A) (idx : Z) (a : A) : outcome (list A) :=
  if decide (Z.to_nat idx < length v)%nat then Returned (<[Z.to_nat idx := a]> v)
  else Undefined.

(** Running a loop body over the values [l] of the loop variable, in order,
    threading the buffer. *)
Fixpoint for_each {I S : Type} (l : list I) (body : I -> S -> outcome S) (s : S)
  : outcome S :=
  match l with
  | [] => Returned s
  | i :: l' => s' ← body i s; for_each l' body s'
  end.

(** [for (size_t k = 0; k < bound; k++)] with an [int] bound: the comparison
    converts [bound] to [size_t]. *)
Definition loop_range (bound : Z) : list Z := seqZ 0 (to_size_t bound).

(** ** FrameRenderer *)

(** The colour computed by the loop body for pixel [(i, j)]. *)
Definition pixel_color (width height : Z) (fov : R) (i j : Z) : Vec3f :=
  let dir_x := (IZR i + 0.5) - IZR width / 2.0 in
  let dir_y := - (IZR j + 0.5) + IZR height / 2.0 in
  let dir_z := IZR (- height) / (2.0 * tan (fov / 2.0)) in
  let dir := vec3f_normalize {| x := dir_x; y := dir_y; z := dir_z |} in
  match sphere_trace {| x := 0; y := 0; z := 3 |} dir with
  | Some hit =>
      let light_dir := vec3f_normalize (vec3f_sub {| x := 0; y := 10; z := 10 |} hit) in
      let light_intensity :=
        Rmax 0.4 (vec3f_dot light_dir (distance_field_normal hit)) in
      vec3f_scale {| x := 1; y := 1; z := 1 |} light_intensity
  | None => {| x := 0.3; y := 0.9; z := 0.2 |}
  end.

(** [framebuffer[i + j * width] = ...]: the index is computed in [size_t]. *)
Definition render_pixel (width height : Z) (fov : R) (j i : Z)
  (framebuffer : list Vec3f) : outcome (list Vec3f) :=
  store framebuffer (to_size_t (i + j * to_size_t width))
        (pixel_color width height fov i j).

Definition vec3f_zero : Vec3f := {| x := 0; y := 0; z := 0 |}.

(** The function as written, run sequentially: rows outside, columns
    inside. *)
Definition render_framebuffer (width height : Z) (fov : R) : outcome (list Vec3f) :=
  n ← int_mul width height;
  framebuffer ← vector_new 12 vec3f_zero n;
  for_each (loop_range height)
    (fun j fb => for_each (loop_range width) (render_pixel width height fov j) fb)
    framebuffer.

(** The iterations of the two loops, as (row, column) pairs in program order. *)
Definition iteration_space (width height : Z) : list (Z * Z) :=
  j ← loop_range height; i ← loop_range width; [(j, i)].

(** [#pragma omp parallel for]: the iterations run in some order [sched]
    decided by the runtime, each writing its own cell. *)
Definition render_framebuffer_omp (sched : list (Z * Z)) (width height : Z) (fov : R)
  : outcome (list Vec3f) :=
  n ← int_mul width height;
  framebuffer ← vector_new 12 vec3f_zero n;
  for_each sched (fun ji fb => render_pixel width height fov ji.1 ji.2 fb) framebuffer.

(** ** PixelEncoder *)

(** [static_cast<uint8_t>(v)]: the fractional part is discarded. *)
Definition truncate (v : R) : Z :=
  if Rle_dec 0 v then Zfloor v else Zceil v.

Definition encode_channel (c : R) : Z :=
  truncate (Rmax 0 (Rmin 255 (c * 255))).

Definition convert_pixel (framebuffer : list Vec3f) (width : Z) (j i : Z)
  (pixels : list Z) : outcome (list Z) :=
  color ← load framebuffer (to_size_t (i + j * to_size_t width));
  let r := encode_channel color.(x) in
  let g := encode_channel color.(y) in
  let b := encode_channel color.(z) in
  let pixelIndex := to_size_t ((j * to_size_t width + i) * 3) in
  pixels ← store pixels pixelIndex r;
  pixels ← store pixels (to_size_t (pixelIndex + 1)) g;
  store pixels (to_size_t (pixelIndex + 2)) b.

Definition convert_framebuffer_to_pixels (framebuffer : list Vec3f) (width height : Z)
  : outcome (list Z) :=
  n ← int_mul width height;
  n3 ← int_mul n 3;
  pixels ← vector_new 1 0%Z n3;
  for_each (loop_range height)
    (fun j px => for_each (loop_range width) (convert_pixel framebuffer width j) px)
    pixels.

(** ** Auxiliary notions for the statements about the marcher *)

(** The value of [pos] on entry to iteration [k] of the loop of
    [sphere_trace], when no earlier iteration has returned. *)
Fixpoint trace_pos (k : nat) (dir orig : Vec3f) : Vec3f :=
  match k with
  | O => orig
  | S k' => trace_step dir (trace_pos k' dir orig)
  end.

(** The sum of the step lengths taken before iteration [k]. *)
Fixpoint travelled (k : nat) (dir orig : Vec3f) : R :=
  match k with
  | O => 0
  | S k' => travelled k' dir orig
            + Rmax (signed_distance (trace_pos k' dir orig) * 0.1) 0.01
  end.

(** ** Interval enclosures

    Fixed-point intervals with integer endpoints, used to enclose the value
    of [hash] at given integers: [sin] and [cos] of [n / 2 ^ k] by their
    alternating series, then [k] angle doublings. *)

Definition fix_one : Z := (2 ^ 120)%Z.

Record interval : Type := { lo : Z; hi : Z }.

(** [v] lies between the endpoints of [i], read in units of [1 / fix_one]. *)
Definition contains (i : interval) (v : R) : Prop :=
  IZR i.(lo) <= v * IZR fix_one <= IZR i.(hi).

(** Division rounded up. *)
Definition cdiv (a b : Z) : Z := (- ((- a) / b))%Z.

Definition iadd (a b : interval) : interval :=
  {| lo := a.(lo) + b.(lo); hi := a.(hi) + b.(hi) |}%Z.

Definition ineg (a : interval) : interval :=
  {| lo := - a.(hi); hi := - a.(lo) |}%Z.

Definition imul (a b : interval) : interval :=
  let p1 := (a.(lo) * b.(lo))%Z in
  let p2 := (a.(lo) * b.(hi))%Z in
  let p3 := (a.(hi) * b.(lo))%Z in
  let p4 := (a.(hi) * b.(hi))%Z in
  {| lo := (Z.min (Z.min p1 p2) (Z.min p3 p4) / fix_one)%Z;
     hi := cdiv (Z.max (Z.max p1 p2) (Z.max p3 p4)) fix_one |}.

(** Division by a positive integer, multiplication by a non-negative one. *)
Definition idiv (a : interval) (d : Z) : interval :=
  {| lo := (a.(lo) / d)%Z; hi := cdiv a.(hi) d |}.

Definition iscale (c : Z) (a : interval) : interval :=
  {| lo := (c * a.(lo))%Z; hi := (c * a.(hi))%Z |}.

(** The rational [n / d], for [d > 0]. *)
Definition ifrac (n d : Z) : interval :=
  {| lo := (n * fix_one / d)%Z; hi := cdiv (n * fix_one) d |}.

(** [m + 1] terms of a series whose first term is [t] and in which each
    term is the previous one times [- a2 / (d * (d + 1))], [d] growing by
    two from term to term. *)
Fixpoint alt_series (a2 t : interval) (d : Z) (m : nat) : interval :=
  match m with
  | O => t
  | S m' =>
      iadd t (alt_series a2 (idiv (ineg (imul t a2)) (d * (d + 1))) (d + 2) m')
  end.

Definition taylor_order : nat := 20.

(** Enclosures of [sin (n / d)] and [cos (n / d)] for [0 <= n / d <= 2]: the
    partial sums of odd and even index bound the value from below and above. *)
Definition sin_small (n d : Z) : interval :=
  let a := ifrac n d in
  let a2 := imul a a in
  {| lo := (alt_series a2 a 2 (2 * taylor_order + 1)).(lo);
     hi := (alt_series a2 a 2 (2 * (taylor_order + 1))).(hi) |}.

Definition cos_small (n d : Z) : interval :=
  let a := ifrac n d in
  let a2 := imul a a in
  {| lo := (alt_series a2 (ifrac 1 1) 1 (2 * taylor_order + 1)).(lo);
     hi := (alt_series a2 (ifrac 1 1) 1 (2 * (taylor_order + 1))).(hi) |}.

(** [k] doublings: [sin 2a = 2 sin a cos a], [cos 2a = 1 - 2 sin a sin a]. *)
Fixpoint double_angle (k : nat) (s c : interval) : interval * interval :=
  match k with
  | O => (s, c)
  | S k' =>
      double_angle k' (iscale 2 (imul s c))
                   (iadd (ifrac 1 1) (ineg (iscale 2 (imul s s))))
  end.

Definition sin_enclosure (n : Z) (k : nat) : interval :=
  (double_angle k (sin_small n (2 ^ Z.of_nat k)) (cos_small n (2 ^ Z.of_nat k))).1.

(** An enclosure of [hash n], when the enclosure of [sin n * 43758.5453]
    does not straddle an integer. *)
Definition hash_enclosure (n : Z) (k : nat) : option interval :=
  let s := sin_enclosure n k in
  let v := {| lo := (s.(lo) * 437585453 / 10000)%Z;
              hi := cdiv (s.(hi) * 437585453) 10000 |} in
  let m := (v.(lo) / fix_one)%Z in
  if (v.(hi) <? (m + 1) * fix_one)%Z
  then Some {| lo := (v.(lo) - m * fix_one)%Z; hi := (v.(hi) - m * fix_one)%Z |}
  else None.

(** [num1 / den <= hash n <= num2 / den], decided through the enclosure. *)
Definition hash_between (n : Z) (k : nat) (num1 num2 den : Z) : bool :=
  match hash_enclosure n k with
  | Some i => ((num1 * fix_one <=? i.(lo) * den) && (i.(hi) * den <=? num2 * fix_one))%Z
  | None => false
  end.



(** ** The noise primitive as the specification words it

    Lattice cell and offset, one shared weight for the three axes, the
    lattice index, and the trilinear interpolation of the eight corner
    hashes with parameters clamped to [0, 1]. *)

Definition clamp01 (t : R) : R :=
  if Rlt_dec t 0 then 0 else if Rlt_dec 1 t then 1 else t.

Definition noise_spec (x0 : Vec3f) : R :=
  let p := {| x := floor x0.(x); y := floor x0.(y); z := floor x0.(z) |} in
  let f := vec3f_sub x0 p in
  let w := vec3f_dot f (vec3f_sub {| x := 3; y := 3; z := 3 |} (vec3f_scale f 2)) in
  let n := vec3f_dot p {| x := 1; y := 57; z := 113 |} in
  let tx := clamp01 (f.(x) * w) in
  let ty := clamp01 (f.(y) * w) in
  let tz := clamp01 (f.(z) * w) in
  hash (n + 0) * (1 - tx) * (1 - ty) * (1 - tz)
  + hash (n + 1) * tx * (1 - ty) * (1 - tz)
  + hash (n + 57) * (1 - tx) * ty * (1 - tz)
  + hash (n + 58) * tx * ty * (1 - tz)
  + hash (n + 113) * (1 - tx) * (1 - ty) * tz
  + hash (n + 114) * tx * (1 - ty) * tz
  + hash (n + 170) * (1 - tx) * ty * tz
  + hash (n + 171) * tx * ty * tz.

(** The textbook variant the code departs from: each axis smoothed by its
    own [t * t * (3 - 2 * t)]. *)
Definition smoothstep (t : R) : R := t * t * (3 - 2 * t).

Definition noise_per_axis (x0 : Vec3f) : R :=
  let p := {| x := floor x0.(x); y := floor x0.(y); z := floor x0.(z) |} in
  let f := vec3f_sub x0 p in
  let n := vec3f_dot p {| x := 1; y := 57; z := 113 |} in
  let tx := clamp01 (smoothstep f.(x)) in
  let ty := clamp01 (smoothstep f.(y)) in
  let tz := clamp01 (smoothstep f.(z)) in
  hash (n + 0) * (1 - tx) * (1 - ty) * (1 - tz)
  + hash (n + 1) * tx * (1 - ty) * (1 - tz)
  + hash (n + 57) * (1 - tx) * ty * (1 - tz)
  + hash (n + 58) * tx * ty * (1 - tz)
  + hash (n + 113) * (1 - tx) * (1 - ty) * tz
  + hash (n + 114) * tx * (1 - ty) * tz
  + hash (n + 170) * (1 - tx) * ty * tz
  + hash (n + 171) * tx * ty * tz.

(** ** Closed forms of the two buffers, and the composition run by [main] *)

(** The three bytes of one colour. *)
Definition encode_pixel (color : Vec3f) : list Z :=
  [encode_channel color.(x); encode_channel color.(y); encode_channel color.(z)].

(** Cell [k] of a fully rendered frame holds the colour of pixel
    [(k mod width, k / width)]. *)
Definition rendered_frame (width height : Z) (fov : R) : list Vec3f :=
  (fun k => pixel_color width height fov (k `mod` width) (k `div` width))
    <$> seqZ 0 (width * height).

(** [render_framebuffer] followed by [convert_framebuffer_to_pixels], the
    iterations of the parallel loop taken in the order [sched]. *)
Definition render_omp (sched : list (Z * Z)) (width height : Z) (fov : R)
  : outcome (list Z) :=
  framebuffer ← render_framebuffer_omp sched width height fov;
  convert_framebuffer_to_pixels framebuffer width height.

Definition render (width height : Z) (fov : R) : outcome (list Z) :=
  framebuffer ← render_framebuffer width height fov;
  convert_framebuffer_to_pixels framebuffer width height.

(** A frame of two pixels: the background colour, and a colour with
    channels above one and below zero. *)
Definition sample_frame : list Vec3f :=
  [{| x := 0.3; y := 0.9; z := 0.2 |}; {| x := 2; y := -1; z := 0.5 |}].

(** A sequence of indexed writes into one buffer. *)
Definition apply_writes {A : Type} (ws : list (Z * A)) (buf : list A)
  : outcome (list A) :=
  for_each ws (fun w b => store b w.1 w.2) buf.

(** The direction of the ray through pixel [(i, j)], as computed at the top
    of the loop body of [render_framebuffer]. *)
Definition pixel_direction (width height : Z) (fov : R) (i j : Z) : Vec3f :=
  let dir_x := (IZR i + 0.5) - IZR width / 2.0 in
  let dir_y := - (IZR j + 0.5) + IZR height / 2.0 in
  let dir_z := IZR (- height) / (2.0 * tan (fov / 2.0)) in
  vec3f_normalize {| x := dir_x; y := dir_y; z := dir_z |}.

(** * Verification *)

(** ** VectorMath *)

Lemma vec3f_eq (a b : Vec3f) :
  a.(x) = b.(x) -> a.(y) = b.(y) -> a.(z) = b.(z) -> a = b.
Proof. destruct a, b; simpl; intros -> -> ->; reflexivity. Qed.


Lemma vec3f_norm_sqr v :
  vec3f_norm v * vec3f_norm v = v.(x) * v.(x) + v.(y) * v.(y) + v.(z) * v.(z).
Proof. unfold vec3f_norm. apply sqrt_sqrt. nra. Qed.

Lemma vec3f_norm_zero : vec3f_norm (make_vec3f 0 0 0) = 0.
Proof.
  unfold vec3f_norm; simpl.
  replace (0 * 0 + 0 * 0 + 0 * 0) with 0 by ring. apply sqrt_0.
Qed.


(** A normalised vector of positive length has length one. *)
Lemma vec3f_norm_normalize v :
  0 < vec3f_norm v -> vec3f_norm (vec3f_normalize v) = 1.
Proof.
  intros Hn. unfold vec3f_normalize.
  destruct (Rlt_dec 0 (vec3f_norm v)) as [_|]; [|contradiction].
  pose proof (vec3f_norm_sqr v) as Hs.
  set (n := vec3f_norm v) in *.
  unfold vec3f_norm at 1; simpl.
  replace (x v / n * (x v / n) + y v / n * (y v / n) + z v / n * (z v / n))
    with ((x v * x v + y v * y v + z v * z v) / (n * n)) by (field; lra).
  rewrite <- Hs. replace (n * n / (n * n)) with 1 by (field; lra).
  apply sqrt_1.
Qed.


(** ** NoisePrimitive and FractalNoise: ranges *)

Lemma floor_bound r : floor r <= r < floor r + 1.
Proof. apply Zfloor_bound. Qed.

Lemma hash_range n : 0 <= hash n < 1.
Proof. unfold hash. pose proof (floor_bound (sin n * 43758.5453)). lra. Qed.

Lemma clamp_range t : 0 <= Rmax 0 (Rmin 1 t) <= 1.
Proof.
  split; [apply Rmax_l|].
  apply Rmax_lub; [lra | apply Rmin_l].
Qed.

Lemma lerp_range v0 v1 t :
  0 <= v0 <= 1 -> 0 <= v1 <= 1 -> 0 <= lerp v0 v1 t <= 1.
Proof.
  intros H0 H1. unfold lerp. pose proof (clamp_range t) as Hc.
  set (c := Rmax 0 (Rmin 1 t)) in *. nra.
Qed.

Lemma noise_range p : 0 <= noise p <= 1.
Proof.
  unfold noise. cbv zeta.
  repeat apply lerp_range; (split; [apply hash_range | apply Rlt_le, hash_range]).
Qed.

Lemma fractal_brownian_motion_range p : 0 <= fractal_brownian_motion p <= 1.
Proof.
  unfold fractal_brownian_motion. cbv zeta.
  pose proof (noise_range (rotate p)).
  pose proof (noise_range (vec3f_scale (rotate p) 2.32)).
  pose proof (noise_range (vec3f_scale (vec3f_scale (rotate p) 2.32) 3.03)).
  pose proof (noise_range (vec3f_scale (vec3f_scale (vec3f_scale (rotate p) 2.32) 3.03) 2.61)).
  split.
  - apply Rmult_le_reg_r with 0.9375; [lra|].
    unfold Rdiv. rewrite Rmult_assoc, Rinv_l by lra. lra.
  - apply Rmult_le_reg_r with 0.9375; [lra|].
    unfold Rdiv. rewrite Rmult_assoc, Rinv_l by lra. lra.
Qed.


(** ** DistanceField *)

Lemma signed_distance_bounds p :
  vec3f_norm p - 1.5 <= signed_distance p <= vec3f_norm p - 0.5.
Proof.
  unfold signed_distance, sphere_radius, noise_amplitude. cbv zeta.
  pose proof (fractal_brownian_motion_range (vec3f_scale p 3.4)). lra.
Qed.


(** C3: the field is strictly negative at the origin. *)
Theorem signed_distance_origin_negative :
  signed_distance {| x := 0; y := 0; z := 0 |} < 0.
Proof.
  pose proof (signed_distance_bounds {| x := 0; y := 0; z := 0 |}) as H.
  change {| x := 0; y := 0; z := 0 |} with (make_vec3f 0 0 0) in *.
  rewrite vec3f_norm_zero in H. lra.
Qed.

(** ** RayMarcher *)

Lemma trace_pos_shift k dir pos :
  trace_pos (S k) dir pos = trace_pos k dir (trace_step dir pos).
Proof.
  induction k as [|k IH]; [reflexivity|].
  change (trace_pos (S (S k)) dir pos) with (trace_step dir (trace_pos (S k) dir pos)).
  rewrite IH. reflexivity.
Qed.

(** What the loop returns, in terms of the positions it visits. *)
Lemma trace_loop_spec n dir pos :
  match trace_loop n dir pos with
  | Some p =>
      exists k, (k < n)%nat /\ p = trace_pos k dir pos /\ signed_distance p < 0 /\
                forall j, (j < k)%nat -> 0 <= signed_distance (trace_pos j dir pos)
  | None =>
      forall k, (k < n)%nat -> 0 <= signed_distance (trace_pos k dir pos)
  end.
Proof.
  revert pos. induction n as [|n IH]; intros pos; simpl.
  - intros k Hk. lia.
  - destruct (Rlt_dec (signed_distance pos) 0) as [Hd|Hd].
    + exists O. repeat split; [lia | assumption | intros j Hj; lia].
    + specialize (IH (trace_step dir pos)).
      destruct (trace_loop n dir (trace_step dir pos)) as [p|].
      * destruct IH as (k & Hk & Hp & Hneg & Hbefore).
        exists (S k). rewrite trace_pos_shift. repeat split; [lia | assumption | assumption |].
        intros [|j] Hj; [simpl; lra|].
        rewrite trace_pos_shift. apply Hbefore. lia.
      * intros [|k] Hk; [simpl; lra|].
        rewrite trace_pos_shift. apply IH. lia.
Qed.

Lemma travelled_nonneg k dir orig : 0 <= travelled k dir orig.
Proof.
  induction k as [|k IH]; simpl; [lra|].
  pose proof (Rmax_r (signed_distance (trace_pos k dir orig) * 0.1) 0.01). lra.
Qed.


(** Every visited position lies on the ray, at the distance travelled. *)
Lemma trace_pos_on_ray k dir orig :
  trace_pos k dir orig = vec3f_add orig (vec3f_scale dir (travelled k dir orig)).
Proof.
  induction k as [|k IH].
  - apply vec3f_eq; simpl; ring.
  - simpl. unfold trace_step. rewrite IH at 1.
    apply vec3f_eq; simpl; ring.
Qed.

(** ** Interval enclosures: soundness *)

Lemma fix_one_pos : 0 < IZR fix_one.
Proof. apply IZR_lt. reflexivity. Qed.

Lemma floor_div_le a d : (0 < d)%Z -> IZR (a / d) * IZR d <= IZR a.
Proof.
  intros Hd. rewrite <- mult_IZR. apply IZR_le.
  rewrite Z.mul_comm. apply Z.mul_div_le. exact Hd.
Qed.

Lemma cdiv_ge a d : (0 < d)%Z -> IZR a <= IZR (cdiv a d) * IZR d.
Proof.
  intros Hd. unfold cdiv. rewrite <- mult_IZR. apply IZR_le.
  pose proof (Z.mul_div_le (- a) d Hd). lia.
Qed.

Lemma contains_iadd a b u v :
  contains a u -> contains b v -> contains (iadd a b) (u + v).
Proof. unfold contains; simpl; rewrite !plus_IZR; lra. Qed.

Lemma contains_ineg a u : contains a u -> contains (ineg a) (- u).
Proof. unfold contains; simpl; rewrite !opp_IZR; lra. Qed.

Lemma contains_iscale c a u :
  (0 <= c)%Z -> contains a u -> contains (iscale c a) (IZR c * u).
Proof.
  unfold contains; simpl; intros Hc [H1 H2]. rewrite !mult_IZR.
  apply IZR_le in Hc. nra.
Qed.

Lemma contains_idiv a d u :
  (0 < d)%Z -> contains a u -> contains (idiv a d) (u / IZR d).
Proof.
  unfold contains; simpl; intros Hd [H1 H2].
  pose proof (floor_div_le (lo a) d Hd) as Hl.
  pose proof (cdiv_ge (hi a) d Hd) as Hh.
  assert (Hd' : 0 < IZR d) by (apply IZR_lt; exact Hd).
  replace (u / IZR d * IZR fix_one) with (u * IZR fix_one / IZR d) by (field; lra).
  split.
  - apply Rmult_le_reg_r with (IZR d); [exact Hd'|].
    unfold Rdiv. rewrite Rmult_assoc, Rinv_l by lra. lra.
  - apply Rmult_le_reg_r with (IZR d); [exact Hd'|].
    unfold Rdiv. rewrite Rmult_assoc, Rinv_l by lra. lra.
Qed.

Lemma contains_ifrac n d : (0 < d)%Z -> contains (ifrac n d) (IZR n / IZR d).
Proof.
  intros Hd.
  assert (H : contains {| lo := n * fix_one; hi := n * fix_one |} (IZR n)).
  { unfold contains; simpl. rewrite mult_IZR. lra. }
  exact (contains_idiv _ d _ Hd H).
Qed.

Lemma contains_one : contains (ifrac 1 1) 1.
Proof.
  pose proof (contains_ifrac 1 1 ltac:(lia)) as H.
  replace (IZR 1 / IZR 1) with 1 in H by field. exact H.
Qed.

(** A product of two bounded reals lies between the smallest and the
    largest product of the bounds. *)
Lemma product_lower (la ha lb hb u v : R) :
  la <= u <= ha -> lb <= v <= hb ->
  la * lb <= u * v \/ la * hb <= u * v \/ ha * lb <= u * v \/ ha * hb <= u * v.
Proof.
  intros Hu Hv.
  destruct (Rle_dec 0 v) as [Hv0|Hv0]; destruct (Rle_dec 0 u) as [Hu0|Hu0].
  - destruct (Rle_dec 0 la); [left | right; left]; nra.
  - right; left. nra.
  - right; right; left. nra.
  - destruct (Rle_dec 0 ha); [right; right; left | right; right; right]; nra.
Qed.

Lemma product_upper (la ha lb hb u v : R) :
  la <= u <= ha -> lb <= v <= hb ->
  u * v <= la * lb \/ u * v <= la * hb \/ u * v <= ha * lb \/ u * v <= ha * hb.
Proof.
  intros Hu Hv.
  assert (Hu' : - ha <= - u <= - la) by lra.
  destruct (product_lower _ _ _ _ _ _ Hu' Hv) as [H|[H|[H|H]]].
  - right; right; left. lra.
  - right; right; right. lra.
  - left. lra.
  - right; left. lra.
Qed.

Lemma contains_imul a b u v :
  contains a u -> contains b v -> contains (imul a b) (u * v).
Proof.
  unfold contains; simpl; intros Hu Hv.
  pose proof fix_one_pos as HP.
  set (p1 := (lo a * lo b)%Z). set (p2 := (lo a * hi b)%Z).
  set (p3 := (hi a * lo b)%Z). set (p4 := (hi a * hi b)%Z).
  set (mn := Z.min (Z.min p1 p2) (Z.min p3 p4)).
  set (mx := Z.max (Z.max p1 p2) (Z.max p3 p4)).
  assert (Hmn : IZR mn <= u * IZR fix_one * (v * IZR fix_one)).
  { destruct (product_lower _ _ _ _ _ _ Hu Hv) as [H|[H|[H|H]]];
      rewrite <- mult_IZR in H; (eapply Rle_trans; [|exact H]); apply IZR_le;
      unfold mn; fold p1 p2 p3 p4; lia. }
  assert (Hmx : u * IZR fix_one * (v * IZR fix_one) <= IZR mx).
  { destruct (product_upper _ _ _ _ _ _ Hu Hv) as [H|[H|[H|H]]];
      rewrite <- mult_IZR in H; (eapply Rle_trans; [exact H|]); apply IZR_le;
      unfold mx; fold p1 p2 p3 p4; lia. }
  pose proof (floor_div_le mn fix_one ltac:(reflexivity)) as Hl.
  pose proof (cdiv_ge mx fix_one ltac:(reflexivity)) as Hh.
  split; apply Rmult_le_reg_r with (IZR fix_one); try exact HP; lra.
Qed.

(** The series computed by [alt_series] encloses the partial sum of any
    real sequence obeying the same recurrence. *)
Lemma alt_series_correct m : forall a2 t d A2 (f : nat -> R),
  (0 < d)%Z -> contains a2 A2 -> contains t (f O) ->
  (forall i, f (S i) =
     - (f i * A2) / IZR ((d + 2 * Z.of_nat i) * (d + 2 * Z.of_nat i + 1))) ->
  contains (alt_series a2 t d m) (sum_f_R0 f m).
Proof.
  induction m as [|m IH]; intros a2 t d A2 f Hd Ha2 Ht Hrec; [exact Ht|].
  rewrite (decomp_sum f (S m)) by lia. simpl pred.
  cbn [alt_series]. apply contains_iadd; [exact Ht|].
  apply IH with (A2 := A2).
  - lia.
  - exact Ha2.
  - rewrite Hrec. replace (d + 2 * Z.of_nat 0)%Z with d by lia.
    apply contains_idiv; [lia|]. apply contains_ineg, contains_imul; assumption.
  - intros i. rewrite Hrec. do 2 f_equal. lia.
Qed.

Lemma sin_term_S a i :
  sin_term a (S i) =
  - (sin_term a i * (a * a)) / IZR ((2 + 2 * Z.of_nat i) * (2 + 2 * Z.of_nat i + 1)).
Proof.
  unfold sin_term.
  replace (2 * S i + 1)%nat with (S (S (2 * i + 1))) by lia.
  rewrite !fact_simpl, !mult_INR. cbn [pow].
  pose proof (INR_fact_neq_0 (2 * i + 1)) as Hf.
  rewrite mult_IZR, !plus_IZR, mult_IZR, <- INR_IZR_INZ.
  rewrite !S_INR, plus_INR, mult_INR.
  replace (INR 2) with 2 by (simpl; lra). replace (INR 1) with 1 by reflexivity.
  assert (0 <= INR i) by apply pos_INR.
  field. repeat split; lra.
Qed.

Lemma cos_term_S a i :
  cos_term a (S i) =
  - (cos_term a i * (a * a)) / IZR ((1 + 2 * Z.of_nat i) * (1 + 2 * Z.of_nat i + 1)).
Proof.
  unfold cos_term.
  replace (2 * S i)%nat with (S (S (2 * i))) by lia.
  rewrite !fact_simpl, !mult_INR. cbn [pow].
  pose proof (INR_fact_neq_0 (2 * i)) as Hf.
  rewrite mult_IZR, !plus_IZR, mult_IZR, <- INR_IZR_INZ.
  rewrite !S_INR, mult_INR.
  replace (INR 2) with 2 by (simpl; lra).
  assert (0 <= INR i) by apply pos_INR.
  field. repeat split; lra.
Qed.

Create HintDb enclosure.
#[local] Hint Resolve contains_iadd contains_ineg contains_imul contains_one : enclosure.

Lemma contains_hull i1 i2 a b v :
  contains i1 a -> contains i2 b -> a <= v <= b ->
  contains {| lo := i1.(lo); hi := i2.(hi) |} v.
Proof.
  unfold contains; cbn [lo hi]. intros [H1 _] [_ H2] [Ha Hb].
  pose proof fix_one_pos as HP. split.
  - eapply Rle_trans; [exact H1|]. apply Rmult_le_compat_r; [lra | exact Ha].
  - eapply Rle_trans; [|exact H2]. apply Rmult_le_compat_r; [lra | exact Hb].
Qed.

Lemma sin_small_correct n d :
  (0 < d)%Z -> (0 <= n <= 2 * d)%Z ->
  contains (sin_small n d) (sin (IZR n / IZR d)).
Proof.
  intros Hd Hn. set (a := IZR n / IZR d).
  assert (Hd' : 0 < IZR d) by (apply IZR_lt; exact Hd).
  assert (Ha : 0 <= a <= 2).
  { destruct Hn as [Hn1 Hn2]. apply IZR_le in Hn1, Hn2. rewrite mult_IZR in Hn2.
    unfold a; split.
    - apply Rmult_le_reg_r with (IZR d); [lra|].
      unfold Rdiv; rewrite Rmult_assoc, Rinv_l by lra; lra.
    - apply Rmult_le_reg_r with (IZR d); [lra|].
      unfold Rdiv; rewrite Rmult_assoc, Rinv_l by lra; lra. }
  pose proof (contains_ifrac n d Hd) as Hfr. fold a in Hfr.
  pose proof (contains_imul _ _ _ _ Hfr Hfr) as Hsq.
  assert (Hser : forall m, contains
            (alt_series (imul (ifrac n d) (ifrac n d)) (ifrac n d) 2 m)
            (sin_approx a m)).
  { intros m. unfold sin_approx.
    apply alt_series_correct with (A2 := a * a); [lia | exact Hsq | | apply sin_term_S].
    unfold sin_term. simpl.
    replace (1 * (a * 1 / 1)) with a by field. exact Hfr. }
  unfold sin_small. cbv zeta.
  eapply contains_hull; [apply Hser | apply Hser |].
  apply pre_sin_bound; lra.
Qed.

Lemma cos_small_correct n d :
  (0 < d)%Z -> (0 <= n <= 2 * d)%Z ->
  contains (cos_small n d) (cos (IZR n / IZR d)).
Proof.
  intros Hd Hn. set (a := IZR n / IZR d).
  assert (Hd' : 0 < IZR d) by (apply IZR_lt; exact Hd).
  assert (Ha : 0 <= a <= 2).
  { destruct Hn as [Hn1 Hn2]. apply IZR_le in Hn1, Hn2. rewrite mult_IZR in Hn2.
    unfold a; split.
    - apply Rmult_le_reg_r with (IZR d); [lra|].
      unfold Rdiv; rewrite Rmult_assoc, Rinv_l by lra; lra.
    - apply Rmult_le_reg_r with (IZR d); [lra|].
      unfold Rdiv; rewrite Rmult_assoc, Rinv_l by lra; lra. }
  pose proof (contains_ifrac n d Hd) as Hfr. fold a in Hfr.
  pose proof (contains_imul _ _ _ _ Hfr Hfr) as Hsq.
  assert (Hser : forall m, contains
            (alt_series (imul (ifrac n d) (ifrac n d)) (ifrac 1 1) 1 m)
            (cos_approx a m)).
  { intros m. unfold cos_approx.
    apply alt_series_correct with (A2 := a * a); [lia | exact Hsq | | apply cos_term_S].
    unfold cos_term. simpl.
    replace (1 * (1 / 1)) with 1 by field. exact contains_one. }
  unfold cos_small. cbv zeta.
  eapply contains_hull; [apply Hser | apply Hser |].
  apply pre_cos_bound; lra.
Qed.

Lemma double_angle_correct k : forall s c a,
  contains s (sin a) -> contains c (cos a) ->
  contains (double_angle k s c).1 (sin (2 ^ k * a)) /\
  contains (double_angle k s c).2 (cos (2 ^ k * a)).
Proof.
  induction k as [|k IH]; intros s c a Hs Hc.
  - simpl. rewrite Rmult_1_l. split; assumption.
  - cbn [double_angle].
    replace (2 ^ S k * a) with (2 ^ k * (2 * a)) by (simpl; ring).
    apply IH.
    + rewrite sin_2a, Rmult_assoc.
      apply (contains_iscale 2); [lia | auto with enclosure].
    + rewrite cos_2a_sin.
      replace (1 - 2 * sin a * sin a) with (1 + - (2 * (sin a * sin a))) by ring.
      apply contains_iadd, contains_ineg, (contains_iscale 2); auto with enclosure. lia.
Qed.

Lemma sin_enclosure_correct n k :
  (0 <= n <= 2 * 2 ^ Z.of_nat k)%Z -> contains (sin_enclosure n k) (sin (IZR n)).
Proof.
  intros Hn. unfold sin_enclosure.
  assert (Hd : (0 < 2 ^ Z.of_nat k)%Z) by (apply Z.pow_pos_nonneg; lia).
  pose proof (sin_small_correct n _ Hd Hn) as Hs.
  pose proof (cos_small_correct n _ Hd Hn) as Hc.
  destruct (double_angle_correct k _ _ _ Hs Hc) as [H _].
  replace (2 ^ k * (IZR n / IZR (2 ^ Z.of_nat k))) with (IZR n) in H; [exact H|].
  rewrite <- pow_IZR. field. apply pow_nonzero. lra.
Qed.

Lemma hash_enclosure_correct n k i :
  (0 <= n <= 2 * 2 ^ Z.of_nat k)%Z ->
  hash_enclosure n k = Some i -> contains i (hash (IZR n)).
Proof.
  intros Hn. unfold hash_enclosure.
  pose proof (sin_enclosure_correct n k Hn) as [Hs1 Hs2].
  set (s := sin_enclosure n k) in *.
  set (v := {| lo := (lo s * 437585453 / 10000)%Z;
               hi := cdiv (hi s * 437585453) 10000 |}).
  cbv zeta. fold v.
  set (m := (lo v / fix_one)%Z).
  destruct (Z.ltb_spec (hi v) ((m + 1) * fix_one)) as [Hlt|]; [|discriminate].
  intros [= <-].
  change (contains {| lo := lo v - m * fix_one; hi := hi v - m * fix_one |}%Z
                   (hash (IZR n))).
  pose proof fix_one_pos as HP.
  set (S0 := sin (IZR n) * 43758.5453).
  assert (Hv : contains v S0).
  { unfold contains, v, S0; cbn [lo hi].
    pose proof (floor_div_le (lo s * 437585453) 10000 ltac:(lia)) as Hl.
    pose proof (cdiv_ge (hi s * 437585453) 10000 ltac:(lia)) as Hh.
    rewrite mult_IZR in Hl, Hh. lra. }
  destruct Hv as [Hv1 Hv2]. clearbody v.
  pose proof (floor_div_le (lo v) fix_one ltac:(reflexivity)) as Hm. fold m in Hm.
  apply IZR_lt in Hlt. rewrite mult_IZR, plus_IZR in Hlt.
  assert (Hfl : Zfloor S0 = m).
  { apply Zfloor_eq. split.
    - apply Rmult_le_reg_r with (IZR fix_one); [exact HP | lra].
    - apply Rmult_lt_reg_r with (IZR fix_one); [exact HP | lra]. }
  unfold contains, hash, floor; cbn [lo hi]. fold S0. rewrite Hfl.
  rewrite !minus_IZR, !mult_IZR. lra.
Qed.

Lemma hash_between_correct n k num1 num2 den :
  (0 <= n <= 2 * 2 ^ Z.of_nat k)%Z -> (0 < den)%Z ->
  hash_between n k num1 num2 den = true ->
  IZR num1 / IZR den <= hash (IZR n) <= IZR num2 / IZR den.
Proof.
  intros Hn Hden. unfold hash_between.
  destruct (hash_enclosure n k) as [i|] eqn:E; [|discriminate].
  intros H. apply andb_prop in H as [H1 H2].
  apply Z.leb_le, IZR_le in H1, H2. rewrite !mult_IZR in H1, H2.
  destruct (hash_enclosure_correct n k i Hn E) as [Hl Hh].
  pose proof fix_one_pos as HP.
  assert (Hd : 0 < IZR den) by (apply IZR_lt; exact Hden).
  split.
  - apply Rmult_le_reg_r with (IZR den); [exact Hd|].
    unfold Rdiv. rewrite Rmult_assoc, Rinv_l by lra.
    apply Rmult_le_reg_r with (IZR fix_one); [exact HP | nra].
  - apply Rmult_le_reg_r with (IZR den); [exact Hd|].
    unfold Rdiv. rewrite Rmult_assoc, Rinv_l by lra.
    apply Rmult_le_reg_r with (IZR fix_one); [exact HP | nra].
Qed.

Lemma hash_171_bound : hash 171 <= 0.2.
Proof.
  pose proof (hash_between_correct 171 7 0 2 10 ltac:(simpl; lia) ltac:(lia)
                ltac:(vm_compute; reflexivity)) as H.
  lra.
Qed.

(** ** The noise in a cell region where all three weights saturate *)

Lemma lerp_one v0 v1 t : 1 <= t -> lerp v0 v1 t = v1.
Proof.
  intros Ht. unfold lerp. rewrite Rmin_left by exact Ht.
  rewrite Rmax_right by lra. ring.
Qed.


Lemma floor_eq r (k : Z) : IZR k <= r < IZR k + 1 -> floor r = IZR k.
Proof. intros H. unfold floor. f_equal. apply Zfloor_eq. exact H. Qed.

(** Offsets of at least 0.41 on all three axes are enough for that. *)
Lemma weights_saturate fx fy fz :
  0.41 <= fx <= 1 -> 0.41 <= fy <= 1 -> 0.41 <= fz <= 1 ->
  let w := fx * (3 - fx * 2) + fy * (3 - fy * 2) + fz * (3 - fz * 2) in
  1 <= fx * w /\ 1 <= fy * w /\ 1 <= fz * w.
Proof.
  intros Hx Hy Hz w.
  assert (Hg : forall f, 0.41 <= f <= 1 -> 0.89 <= f * (3 - f * 2)) by (intros f Hf; nra).
  pose proof (Hg fx Hx). pose proof (Hg fy Hy). pose proof (Hg fz Hz).
  assert (Hw : 2.67 <= w) by (unfold w; lra).
  repeat split; nra.
Qed.

(** Inside the lattice cell [(px, py, pz)], where the shared weight pushes
    all three interpolation parameters to one or beyond, [noise] is the
    hash of the far corner. *)
Lemma noise_far_corner q (px py pz : Z) :
  IZR px <= q.(x) < IZR px + 1 ->
  IZR py <= q.(y) < IZR py + 1 ->
  IZR pz <= q.(z) < IZR pz + 1 ->
  let fx := q.(x) - IZR px in
  let fy := q.(y) - IZR py in
  let fz := q.(z) - IZR pz in
  let w := fx * (3 - fx * 2) + fy * (3 - fy * 2) + fz * (3 - fz * 2) in
  1 <= fx * w -> 1 <= fy * w -> 1 <= fz * w ->
  noise q = hash (IZR (px + 57 * py + 113 * pz + 171)).
Proof.
  intros Hx Hy Hz fx fy fz w Hwx Hwy Hwz.
  unfold noise. rewrite (floor_eq _ _ Hx), (floor_eq _ _ Hy), (floor_eq _ _ Hz).
  cbv zeta. unfold vec3f_scale, vec3f_dot, vec3f_sub. cbn [x y z].
  fold fx fy fz. fold w.
  rewrite (lerp_one _ _ (fz * w)) by exact Hwz.
  rewrite (lerp_one _ _ (fy * w)) by exact Hwy.
  rewrite (lerp_one _ _ (fx * w)) by exact Hwx.
  f_equal. rewrite !plus_IZR, !mult_IZR. ring.
Qed.

Lemma fractal_brownian_motion_upper p :
  fractal_brownian_motion p <= (0.5 * noise (rotate p) + 0.4375) / 0.9375.
Proof.
  unfold fractal_brownian_motion. cbv zeta.
  pose proof (noise_range (vec3f_scale (rotate p) 2.32)).
  pose proof (noise_range (vec3f_scale (vec3f_scale (rotate p) 2.32) 3.03)).
  pose proof (noise_range (vec3f_scale (vec3f_scale (vec3f_scale (rotate p) 2.32) 3.03) 2.61)).
  apply Rmult_le_reg_r with 0.9375; [lra|].
  unfold Rdiv. rewrite !Rmult_assoc, !Rinv_l by lra. lra.
Qed.

Lemma vec3f_norm_z_axis c : vec3f_norm {| x := 0; y := 0; z := c |} = Rabs c.
Proof.
  unfold vec3f_norm; cbn [x y z].
  replace (0 * 0 + 0 * 0 + c * c) with (Rsqr c) by (unfold Rsqr; ring).
  apply sqrt_Rsqr_abs.
Qed.

(** On the axis through the camera, between heights 0.7 and 0.85, the first
    octave sits in cell (1, -2, 1) with saturated weights, so it contributes
    [hash 171] and the field is negative. *)
Lemma central_ray_inside c :
  0.7 <= c <= 0.85 -> signed_distance {| x := 0; y := 0; z := c |} < 0.
Proof.
  intros Hc. unfold signed_distance, sphere_radius, noise_amplitude. cbv zeta.
  rewrite vec3f_norm_z_axis, Rabs_pos_eq by lra.
  pose proof (fractal_brownian_motion_upper (vec3f_scale {| x := 0; y := 0; z := c |} 3.4)) as Hf.
  assert (Hn : noise (rotate (vec3f_scale {| x := 0; y := 0; z := c |} 3.4)) = hash 171).
  { change 171 with (IZR (1 + 57 * (-2) + 113 * 1 + 171)).
    apply noise_far_corner;
      unfold rotate, vec3f_scale, vec3f_dot; cbn [x y z]; try (split; lra);
      apply weights_saturate; lra. }
  rewrite Hn in Hf. pose proof hash_171_bound. lra.
Qed.

(** ** The two rays from the camera along its axis *)

Lemma travelled_add k j dir orig :
  travelled k dir orig + 0.01 * INR j <= travelled (k + j) dir orig.
Proof.
  induction j as [|j IH].
  - rewrite Nat.add_0_r. simpl. lra.
  - replace (k + S j)%nat with (S (k + j)) by lia. rewrite S_INR.
    cbn [travelled].
    pose proof (Rmax_r (signed_distance (trace_pos (k + j) dir orig) * 0.1) 0.01). lra.
Qed.

(** A sequence that starts above a level and is below it later crosses it
    between two consecutive indices. *)
Lemma first_crossing (g : nat -> R) (c : R) n :
  c < g O -> g n <= c -> exists k, (k < n)%nat /\ c < g k /\ g (S k) <= c.
Proof.
  induction n as [|n IH]; intros H0 Hn; [lra|].
  destruct (Rle_dec (g n) c) as [Hle|Hgt].
  - destruct (IH H0 Hle) as (k & Hk & H1 & H2). exists k. split; [lia | tauto].
  - exists n. split; [lia | split; [lra | exact Hn]].
Qed.

Section CentralRay.

(** Marching from the camera along the axis, with heading [s]. *)
Variable s : R.

Lemma axis_pos k :
  trace_pos k {| x := 0; y := 0; z := s |} {| x := 0; y := 0; z := 3 |} =
  {| x := 0; y := 0;
     z := 3 + s * travelled k {| x := 0; y := 0; z := s |} {| x := 0; y := 0; z := 3 |} |}.
Proof.
  rewrite trace_pos_on_ray. apply vec3f_eq; simpl; ring.
Qed.

Lemma axis_distance_bounds k :
  let c := 3 + s * travelled k {| x := 0; y := 0; z := s |} {| x := 0; y := 0; z := 3 |} in
  let d := signed_distance
             (trace_pos k {| x := 0; y := 0; z := s |} {| x := 0; y := 0; z := 3 |}) in
  c - 1.5 <= d /\ (0 <= c -> d <= c - 0.5).
Proof.
  intros c d. unfold d. rewrite axis_pos. fold c.
  pose proof (signed_distance_bounds {| x := 0; y := 0; z := c |}) as H.
  rewrite vec3f_norm_z_axis in H.
  split.
  - pose proof (Rle_abs c). lra.
  - intros Hc. rewrite Rabs_pos_eq in H by exact Hc. lra.
Qed.

End CentralRay.

(** Away from the object the field stays positive. *)
Lemma axis_away_positive k :
  0 < signed_distance (trace_pos k {| x := 0; y := 0; z := 1 |}
                                  {| x := 0; y := 0; z := 3 |}).
Proof.
  destruct (axis_distance_bounds 1 k) as [H _].
  pose proof (travelled_nonneg k {| x := 0; y := 0; z := 1 |} {| x := 0; y := 0; z := 3 |}).
  lra.
Qed.

(** Towards the object: the height [3 - travelled k] after [k] steps. *)
Lemma axis_towards_contraction k :
  let t := travelled k {| x := 0; y := 0; z := -1 |} {| x := 0; y := 0; z := 3 |} in
  1.5 - t <= 1.5 * 0.9 ^ k.
Proof.
  induction k as [|k IH]; [simpl; lra|].
  cbn zeta in *. cbn [travelled pow].
  destruct (axis_distance_bounds (-1) k) as [H _].
  set (t := travelled k _ _) in *. set (d := signed_distance _) in *.
  pose proof (Rmax_l (d * 0.1) 0.01). lra.
Qed.

Lemma axis_towards_step_upper k :
  let t := travelled k {| x := 0; y := 0; z := -1 |} {| x := 0; y := 0; z := 3 |} in
  let t' := travelled (S k) {| x := 0; y := 0; z := -1 |} {| x := 0; y := 0; z := 3 |} in
  0.85 < 3 - t -> 0.815 <= 3 - t'.
Proof.
  cbn zeta. cbn [travelled]. intros Hc.
  destruct (axis_distance_bounds (-1) k) as [_ H].
  set (t := travelled k _ _) in *. set (d := signed_distance _) in *.
  assert (Hd : d <= 3 + -1 * t - 0.5) by (apply H; lra).
  assert (Rmax (d * 0.1) 0.01 <= 0.1 * (2.5 - t)) by (apply Rmax_lub; lra).
  lra.
Qed.

Lemma axis_towards_hits :
  exists k, (k < 128)%nat /\
    signed_distance (trace_pos k {| x := 0; y := 0; z := -1 |}
                                 {| x := 0; y := 0; z := 3 |}) < 0.
Proof.
  set (dir := {| x := 0; y := 0; z := -1 |}). set (cam := {| x := 0; y := 0; z := 3 |}).
  set (g := fun k => 3 - travelled k dir cam).
  assert (H127 : g 127%nat <= 0.85).
  { pose proof (axis_towards_contraction 14) as Hc. cbn zeta in Hc. fold dir cam in Hc.
    pose proof (travelled_add 14 113 dir cam) as Ha.
    change (14 + 113)%nat with 127%nat in Ha.
    replace (INR 113) with 113 in Ha by (rewrite INR_IZR_INZ; reflexivity).
    assert (0.9 ^ 14 <= 0.23) by lra.
    unfold g. lra. }
  assert (H0 : 0.85 < g O) by (unfold g; simpl; lra).
  destruct (first_crossing g 0.85 127 H0 H127) as (k & Hk & Hgk & HgS).
  exists (S k). split; [lia|].
  pose proof (axis_towards_step_upper k) as Hup. cbn zeta in Hup. fold dir cam in Hup.
  unfold g in *. specialize (Hup Hgk).
  unfold dir, cam in *. rewrite axis_pos. apply central_ray_inside. lra.
Qed.

(** C7: the ray from the camera straight at the object hits within the
    budget; the opposite ray does not. *)
Theorem sphere_trace_camera_axis :
  (exists p, sphere_trace {| x := 0; y := 0; z := 3 |} {| x := 0; y := 0; z := -1 |} = Some p) /\
  sphere_trace {| x := 0; y := 0; z := 3 |} {| x := 0; y := 0; z := 1 |} = None.
Proof.
  split.
  - unfold sphere_trace.
    pose proof (trace_loop_spec 128 {| x := 0; y := 0; z := -1 |} {| x := 0; y := 0; z := 3 |}) as H.
    destruct (trace_loop 128 _ _) as [p|]; [exists p; reflexivity|].
    destruct axis_towards_hits as (k & Hk & Hneg).
    specialize (H k Hk). lra.
  - unfold sphere_trace.
    pose proof (trace_loop_spec 128 {| x := 0; y := 0; z := 1 |} {| x := 0; y := 0; z := 3 |}) as H.
    destruct (trace_loop 128 _ _) as [p|]; [|reflexivity].
    destruct H as (k & _ & -> & Hneg & _).
    pose proof (axis_away_positive k). lra.
Qed.

(** ** What [sphere_trace] returns *)

Lemma sphere_trace_inside orig dir :
  signed_distance orig < 0 -> sphere_trace orig dir = Some orig.
Proof.
  intros H. unfold sphere_trace. cbn [trace_loop].
  destruct (Rlt_dec (signed_distance orig) 0); [reflexivity | contradiction].
Qed.




(** ** A point where the field is exactly zero *)








(** ** The noise primitive against its specification *)

Lemma clamp_is_clamp01 t : Rmax 0 (Rmin 1 t) = clamp01 t.
Proof.
  unfold clamp01.
  destruct (Rlt_dec t 0) as [H0|H0].
  - rewrite Rmin_right by lra. apply Rmax_left. lra.
  - destruct (Rlt_dec 1 t) as [H1|H1].
    + rewrite Rmin_left by lra. apply Rmax_right. lra.
    + rewrite Rmin_right by lra. apply Rmax_right. lra.
Qed.

Lemma lerp_blend v0 v1 t : lerp v0 v1 t = v0 * (1 - clamp01 t) + v1 * clamp01 t.
Proof. unfold lerp. rewrite clamp_is_clamp01. ring. Qed.

Lemma noise_is_noise_spec x0 : noise x0 = noise_spec x0.
Proof.
  unfold noise, noise_spec. cbv zeta.
  unfold vec3f_scale, vec3f_dot, vec3f_sub. cbn [x y z].
  rewrite !lerp_blend. ring.
Qed.

Lemma hash_57_170_bounds : 0.9 <= hash 57 /\ 0.8 <= hash 170.
Proof.
  pose proof (hash_between_correct 57 5 9 10 10 ltac:(simpl; lia) ltac:(lia)
                ltac:(vm_compute; reflexivity)).
  pose proof (hash_between_correct 170 7 8 9 10 ltac:(simpl; lia) ltac:(lia)
                ltac:(vm_compute; reflexivity)).
  lra.
Qed.

(** At the centre of cell (1, -2, 1) the shared weight saturates every axis
    while the per-axis smoothstep leaves each parameter at one half. *)
Lemma noise_differs_from_per_axis :
  noise {| x := 1.5; y := -1.5; z := 1.5 |}
  < noise_per_axis {| x := 1.5; y := -1.5; z := 1.5 |}.
Proof.
  assert (Hx : floor 1.5 = 1) by (apply (floor_eq 1.5 1); lra).
  assert (Hy : floor (-1.5) = -2) by (apply (floor_eq (-1.5) (-2)); lra).
  assert (Hn : noise {| x := 1.5; y := -1.5; z := 1.5 |} = hash 171).
  { change 171 with (IZR (1 + 57 * (-2) + 113 * 1 + 171)).
    apply noise_far_corner; cbn [x y z]; try (split; lra);
      apply weights_saturate; lra. }
  rewrite Hn. unfold noise_per_axis. cbv zeta.
  unfold vec3f_dot, vec3f_sub. cbn [x y z]. rewrite Hx, Hy.
  assert (Hs : clamp01 (smoothstep (1.5 - 1)) = 0.5).
  { unfold clamp01, smoothstep.
    destruct (Rlt_dec _ 0); [lra|]. destruct (Rlt_dec 1 _); lra. }
  assert (Hs' : clamp01 (smoothstep (-1.5 - -2)) = 0.5).
  { unfold clamp01, smoothstep.
    destruct (Rlt_dec _ 0); [lra|]. destruct (Rlt_dec 1 _); lra. }
  rewrite Hs, Hs'.
  pose proof hash_57_170_bounds as [H57 H170]. pose proof hash_171_bound as H171.
  replace (1 * 1 + -2 * 57 + 1 * 113 + 57) with 57 by ring.
  replace (1 * 1 + -2 * 57 + 1 * 113 + 170) with 170 by ring.
  pose proof (hash_range (1 * 1 + -2 * 57 + 1 * 113 + 0)).
  pose proof (hash_range (1 * 1 + -2 * 57 + 1 * 113 + 1)).
  pose proof (hash_range (1 * 1 + -2 * 57 + 1 * 113 + 58)).
  pose proof (hash_range (1 * 1 + -2 * 57 + 1 * 113 + 113)).
  pose proof (hash_range (1 * 1 + -2 * 57 + 1 * 113 + 114)).
  pose proof (hash_range (1 * 1 + -2 * 57 + 1 * 113 + 171)).
  lra.
Qed.

(** C4: [noise] is the trilinear interpolation of the eight corner hashes
    of the cell [floor x], at lattice index [dot p (1, 57, 113)], with the
    offset scaled on all three axes by the one weight
    [dot f ((3,3,3) - 2 f)] and every parameter clamped to [0, 1]; this is
    not the per-axis smoothstep. *)
Theorem noise_refines_spec :
  (forall x0, noise x0 = noise_spec x0) /\
  (forall v0 v1 t, lerp v0 v1 t = v0 + (v1 - v0) * clamp01 t) /\
  noise {| x := 1.5; y := -1.5; z := 1.5 |}
    <> noise_per_axis {| x := 1.5; y := -1.5; z := 1.5 |}.
Proof.
  split; [exact noise_is_noise_spec|]. split.
  - intros v0 v1 t. unfold lerp. rewrite clamp_is_clamp01. reflexivity.
  - pose proof noise_differs_from_per_axis. lra.
Qed.

(** ** Buffers: loops as sequences of writes *)

Lemma outcome_bind_ret {A} (m : outcome A) : (m ≫= Returned) = m.
Proof. destruct m; reflexivity. Qed.

Lemma for_each_app {I S} (l1 l2 : list I) (body : I -> S -> outcome S) s :
  for_each (l1 ++ l2) body s = (s' ← for_each l1 body s; for_each l2 body s').
Proof.
  revert s. induction l1 as [|i l1 IH]; intros s; [reflexivity|].
  cbn [app for_each]. destruct (body i s); cbn; [apply IH | reflexivity | reflexivity].
Qed.

(** Nested loops run like one loop over the pairs of indices. *)
Lemma for_each_nested {J I S} (rows : list J) (cols : list I)
  (body : J * I -> S -> outcome S) s :
  for_each (j ← rows; i ← cols; [(j, i)]) body s =
  for_each rows (fun j s => for_each cols (fun i s => body (j, i) s) s) s.
Proof.
  revert s. induction rows as [|j rows IH]; intros s; [reflexivity|].
  cbn [mbind list_bind]. change (list_bind ?f ?l) with (l ≫= f).
  rewrite for_each_app. cbn [for_each].
  assert (Hrow : forall s0, for_each (i ← cols; [(j, i)]) body s0 =
                            for_each cols (fun i s => body (j, i) s) s0).
  { clear. induction cols as [|i cols IH]; intros s0; [reflexivity|].
    cbn. destruct (body (j, i) s0); cbn; [apply IH | reflexivity | reflexivity]. }
  rewrite Hrow. destruct (for_each cols _ s); cbn; [apply IH | reflexivity | reflexivity].
Qed.

(** What a sequence of in-range, mutually consistent writes leaves behind. *)
Lemma apply_writes_spec {A} (ws : list (Z * A)) : forall buf : list A,
  Forall (fun w => (Z.to_nat w.1 < length buf)%nat) ws ->
  (forall a b, a ∈ ws -> b ∈ ws -> Z.to_nat a.1 = Z.to_nat b.1 -> a.2 = b.2) ->
  exists buf', apply_writes ws buf = Returned buf' /\
    length buf' = length buf /\
    (forall w, w ∈ ws -> buf' !! Z.to_nat w.1 = Some w.2) /\
    (forall k, (forall w, w ∈ ws -> Z.to_nat w.1 <> k) -> buf' !! k = buf !! k).
Proof.
  induction ws as [|w ws IH]; intros buf Hin Hcons.
  - exists buf. split; [reflexivity|]. split; [reflexivity|].
    split; [intros w Hw; inversion Hw | auto].
  - apply Forall_cons in Hin as [Hw Hin].
    unfold apply_writes. cbn [for_each]. unfold store.
    destruct (decide (Z.to_nat w.1 < length buf)%nat) as [_|]; [|contradiction].
    cbn. fold (apply_writes ws (<[Z.to_nat w.1:=w.2]> buf)).
    destruct (IH (<[Z.to_nat w.1:=w.2]> buf)) as (buf' & Hret & Hlen & Hset & Hkeep).
    { rewrite length_insert. exact Hin. }
    { intros a b Ha Hb. apply Hcons; apply elem_of_cons; right; assumption. }
    exists buf'. rewrite length_insert in Hlen. repeat split; [exact Hret | exact Hlen | |].
    + intros w' Hw'. apply elem_of_cons in Hw' as [->|Hw']; [|apply Hset; exact Hw'].
      destruct (decide (Exists (fun a => Z.to_nat a.1 = Z.to_nat w.1) ws)) as [Hex|Hno].
      * apply Exists_exists in Hex as (a & Ha & Heq).
        rewrite <- Heq, (Hset a Ha). f_equal.
        apply Hcons; [apply elem_of_cons; right; exact Ha | apply elem_of_cons; left; reflexivity | exact Heq].
      * rewrite Hkeep; [apply list_lookup_insert_eq; exact Hw|].
        intros a Ha Heq. apply Hno. apply Exists_exists. exists a. split; assumption.
    + intros k Hk. rewrite Hkeep.
      * apply list_lookup_insert_ne. apply Hk. apply elem_of_cons; left; reflexivity.
      * intros a Ha. apply Hk. apply elem_of_cons; right; exact Ha.
Qed.


Lemma for_each_as_writes {I A} (l : list I) (body : I -> list A -> outcome (list A))
  (W : I -> list (Z * A)) buf :
  (forall i b, i ∈ l -> body i b = apply_writes (W i) b) ->
  for_each l body buf = apply_writes (l ≫= W) buf.
Proof.
  revert buf. induction l as [|i l IH]; intros buf Hw; [reflexivity|].
  cbn [for_each mbind list_bind]. change (list_bind ?f ?l) with (l ≫= f).
  unfold apply_writes at 1. rewrite for_each_app.
  rewrite Hw by (apply elem_of_cons; left; reflexivity).
  fold (apply_writes (W i) buf). destruct (apply_writes (W i) buf); cbn; [|reflexivity|reflexivity].
  apply IH. intros i' b Hi'. apply Hw. apply elem_of_cons; right; exact Hi'.
Qed.

(** ** Sizes and indices for non-negative dimensions *)

Lemma to_size_t_small n : (0 <= n < 2 ^ 64)%Z -> to_size_t n = n.
Proof. intros H. unfold to_size_t. apply Z.mod_small. exact H. Qed.

Lemma int_mul_in_range a b :
  (int_min <= a * b <= int_max)%Z -> int_mul a b = Returned (a * b)%Z.
Proof.
  intros H. unfold int_mul. destruct (decide (int_min <= a * b <= int_max)%Z); [reflexivity | contradiction].
Qed.

Lemma vector_new_fits {A} elem_size (init : A) n :
  (0 <= n)%Z -> (n <= (2 ^ 63 - 1) `div` elem_size)%Z -> (n < 2 ^ 64)%Z ->
  vector_new elem_size init n = Returned (replicate (Z.to_nat n) init).
Proof.
  intros H0 H1 H2. unfold vector_new. rewrite to_size_t_small by lia.
  destruct (decide (n <= (2 ^ 63 - 1) `div` elem_size)%Z); [reflexivity | contradiction].
Qed.

Lemma vector_new_negative {A} elem_size (init : A) n :
  (0 < elem_size)%Z -> (int_min <= n < 0)%Z ->
  vector_new elem_size init n = Thrown_length_error.
Proof.
  intros He Hn. unfold vector_new, to_size_t.
  destruct (decide (n `mod` 2 ^ 64 <= (2 ^ 63 - 1) `div` elem_size)%Z) as [Hle|]; [|reflexivity].
  exfalso. unfold int_min in Hn.
  assert (n `mod` 2 ^ 64 = n + 2 ^ 64)%Z as Hm.
  { symmetry. apply Z.mod_unique with (-1)%Z; lia. }
  assert ((2 ^ 63 - 1) `div` elem_size <= 2 ^ 63 - 1)%Z.
  { apply Z.div_le_upper_bound; [lia|]. nia. }
  lia.
Qed.

Lemma elem_of_iteration_space width height j i :
  (0 <= width < 2 ^ 64)%Z -> (0 <= height < 2 ^ 64)%Z ->
  (j, i) ∈ iteration_space width height <->
  (0 <= j < height)%Z /\ (0 <= i < width)%Z.
Proof.
  intros Hw Hh. unfold iteration_space, loop_range.
  rewrite !to_size_t_small by assumption.
  rewrite list_elem_of_bind. split.
  - intros (j' & Hin & Hj'). apply list_elem_of_bind in Hin as (i' & Hin & Hi').
    apply list_elem_of_singleton in Hin as [= -> ->].
    apply elem_of_seqZ in Hj', Hi'. lia.
  - intros [Hj Hi]. exists j. split; [|apply elem_of_seqZ; lia].
    apply list_elem_of_bind. exists i. split; [|apply elem_of_seqZ; lia].
    apply list_elem_of_singleton. reflexivity.
Qed.

(** Row-major indexing is a bijection between pixels and cells. *)
Lemma cell_index_bound width height i j :
  (0 <= i < width)%Z -> (0 <= j < height)%Z ->
  (0 <= i + j * width < width * height)%Z.
Proof.
  intros Hi Hj.
  assert (0 <= j * width)%Z by (apply Z.mul_nonneg_nonneg; lia).
  assert (j * width <= (height - 1) * width)%Z by (apply Z.mul_le_mono_nonneg_r; lia).
  lia.
Qed.

Lemma cell_index_inj width i j i' j' :
  (0 <= i < width)%Z -> (0 <= i' < width)%Z -> (0 <= j)%Z -> (0 <= j')%Z ->
  (i + j * width = i' + j' * width)%Z -> i = i' /\ j = j'.
Proof.
  intros Hi Hi' Hj Hj' H.
  assert (j = j') as ->.
  { destruct (Z.lt_trichotomy j j') as [Hlt|[Heq|Hlt]]; [|exact Heq|].
    - assert ((j + 1) * width <= j' * width)%Z by (apply Z.mul_le_mono_nonneg_r; lia). lia.
    - assert ((j' + 1) * width <= j * width)%Z by (apply Z.mul_le_mono_nonneg_r; lia). lia. }
  split; [lia | reflexivity].
Qed.

Lemma cell_of_index width height k :
  (0 <= k < width * height)%Z -> (0 <= height)%Z ->
  (0 <= k `mod` width < width)%Z /\ (0 <= k `div` width < height)%Z /\
  (k = k `mod` width + k `div` width * width)%Z.
Proof.
  intros Hk Hh. assert (0 < width)%Z as Hw by nia.
  pose proof (Z.mod_pos_bound k width Hw). pose proof (Z.div_mod k width ltac:(lia)).
  split; [assumption|]. split; [|lia]. split.
  - apply Z.div_pos; lia.
  - apply Z.div_lt_upper_bound; lia.
Qed.

(** ** FrameRenderer: every schedule fills the same frame *)

Lemma render_framebuffer_is_omp width height fov :
  render_framebuffer width height fov =
  render_framebuffer_omp (iteration_space width height) width height fov.
Proof.
  unfold render_framebuffer, render_framebuffer_omp, iteration_space.
  destruct (int_mul width height) as [n| |]; cbn; [|reflexivity|reflexivity].
  destruct (vector_new 12 vec3f_zero n) as [fb| |]; cbn; [|reflexivity|reflexivity].
  symmetry.
  apply (for_each_nested (loop_range height) (loop_range width)
           (fun ji fb => render_pixel width height fov ji.1 ji.2 fb)).
Qed.

Lemma rendered_frame_length width height fov :
  length (rendered_frame width height fov) = Z.to_nat (width * height).
Proof. unfold rendered_frame. rewrite length_fmap, length_seqZ. reflexivity. Qed.

Lemma rendered_frame_lookup width height fov i j :
  (0 <= i < width)%Z -> (0 <= j < height)%Z ->
  rendered_frame width height fov !! Z.to_nat (i + j * width)
  = Some (pixel_color width height fov i j).
Proof.
  intros Hi Hj. pose proof (cell_index_bound width height i j Hi Hj) as Hb.
  unfold rendered_frame. rewrite list_lookup_fmap, lookup_seqZ_lt by lia.
  cbn. rewrite Z2Nat.id by lia. rewrite Z.add_0_l. do 2 f_equal.
  - rewrite Z.mod_add by lia. apply Z.mod_small. lia.
  - rewrite Z.div_add by lia. rewrite Z.div_small by lia. lia.
Qed.

Lemma render_framebuffer_omp_frame sched width height fov :
  (0 <= width <= int_max)%Z -> (0 <= height <= int_max)%Z ->
  (width * height <= int_max)%Z ->
  sched ≡ₚ iteration_space width height ->
  render_framebuffer_omp sched width height fov
  = Returned (rendered_frame width height fov).
Proof.
  intros Hw Hh Hwh Hperm. unfold int_max in *.
  assert (0 <= width * height)%Z as Hnn by (apply Z.mul_nonneg_nonneg; lia).
  assert (Hmem : forall j i, (j, i) ∈ sched -> (0 <= j < height)%Z /\ (0 <= i < width)%Z).
  { intros j i Hin. rewrite Hperm in Hin.
    apply elem_of_iteration_space in Hin; [exact Hin | lia | lia]. }
  unfold render_framebuffer_omp.
  rewrite int_mul_in_range by (unfold int_min, int_max; lia). cbn.
  rewrite vector_new_fits by (try (change ((2 ^ 63 - 1) `div` 12)%Z with 768614336404564650%Z); lia).
  cbn.
  set (buf := replicate (Z.to_nat (width * height)) vec3f_zero).
  set (W := fun ji : Z * Z =>
              [(to_size_t (ji.2 + ji.1 * to_size_t width),
                pixel_color width height fov ji.2 ji.1)]).
  rewrite (for_each_as_writes sched _ W).
  2:{ intros ji b _. unfold W, apply_writes, render_pixel. cbn. symmetry. apply outcome_bind_ret. }
  assert (Hidx : forall j i, (j, i) ∈ sched ->
            to_size_t (i + j * to_size_t width) = (i + j * width)%Z).
  { intros j i Hin. destruct (Hmem j i Hin) as [Hj Hi].
    pose proof (cell_index_bound width height i j Hi Hj).
    rewrite (to_size_t_small width) by lia. apply to_size_t_small. lia. }
  destruct (apply_writes_spec (sched ≫= W) buf) as (buf' & Hret & Hlen & Hset & _).
  - apply Forall_forall. intros w Hin.
    apply list_elem_of_bind in Hin as ([j i] & Hin & Hji).
    apply list_elem_of_singleton in Hin as ->. cbn.
    destruct (Hmem j i Hji) as [Hj Hi].
    pose proof (cell_index_bound width height i j Hi Hj).
    rewrite (Hidx j i Hji). unfold buf. rewrite length_replicate. lia.
  - intros a b Ha Hb.
    apply list_elem_of_bind in Ha as ([j i] & Ha & Hji).
    apply list_elem_of_bind in Hb as ([j' i'] & Hb & Hji').
    apply list_elem_of_singleton in Ha as ->. apply list_elem_of_singleton in Hb as ->. cbn.
    rewrite (Hidx j i Hji), (Hidx j' i' Hji').
    destruct (Hmem j i Hji) as [Hj Hi]. destruct (Hmem j' i' Hji') as [Hj' Hi'].
    pose proof (cell_index_bound width height i j Hi Hj).
    pose proof (cell_index_bound width height i' j' Hi' Hj').
    intros Heq. apply Z2Nat.inj in Heq; [|lia|lia].
    destruct (cell_index_inj width i j i' j') as [-> ->]; try lia. reflexivity.
  - rewrite Hret. f_equal. apply list_eq. intros k.
    destruct (decide (k < Z.to_nat (width * height))%nat) as [Hk|Hk].
    + destruct (cell_of_index width height (Z.of_nat k)) as (Hi & Hj & Hkk); [lia | lia |].
      set (i := (Z.of_nat k `mod` width)%Z) in *. set (j := (Z.of_nat k `div` width)%Z) in *.
      assert (Hin : (j, i) ∈ sched).
      { rewrite Hperm. apply elem_of_iteration_space; lia. }
      replace k with (Z.to_nat (i + j * width)) by lia.
      rewrite rendered_frame_lookup by lia.
      rewrite <- (Hidx j i Hin).
      apply (Hset (to_size_t (i + j * to_size_t width), pixel_color width height fov i j)).
      apply list_elem_of_bind. exists (j, i). split; [|exact Hin].
      apply list_elem_of_singleton. reflexivity.
    + rewrite !(lookup_ge_None_2); [reflexivity | |].
      * rewrite rendered_frame_length. lia.
      * rewrite Hlen. unfold buf. rewrite length_replicate. lia.
Qed.

(** ** PixelEncoder *)

Lemma encode_channel_range c : (0 <= encode_channel c <= 255)%Z.
Proof.
  unfold encode_channel, truncate.
  set (v := Rmax 0 (Rmin 255 (c * 255))).
  assert (Hv : 0 <= v <= 255).
  { unfold v. split; [apply Rmax_l|]. apply Rmax_lub; [lra | apply Rmin_l]. }
  destruct (Rle_dec 0 v) as [_|]; [|lra].
  split.
  - apply (Zfloor_lub 0). lra.
  - pose proof (Zfloor_bound v) as [Hf _].
    apply le_IZR. lra.
Qed.

(** Scaling by 255, clamping to [0, 255], dropping the fraction. *)
Lemma encode_channel_floor c :
  encode_channel c = Zfloor (Rmax 0 (Rmin 255 (c * 255))).
Proof.
  unfold encode_channel, truncate.
  destruct (Rle_dec 0 (Rmax 0 (Rmin 255 (c * 255)))) as [_|H]; [reflexivity|].
  exfalso. apply H, Rmax_l.
Qed.

(** The background colour (0.3, 0.9, 0.2) becomes the bytes 76, 229, 51. *)
Example encode_pixel_background :
  encode_pixel {| x := 0.3; y := 0.9; z := 0.2 |} = [76; 229; 51]%Z.
Proof.
  unfold encode_pixel. cbn [x y z]. rewrite !encode_channel_floor.
  assert (H : forall c (k : Z), 0 <= c * 255 <= 255 -> IZR k <= c * 255 < IZR k + 1 ->
                Zfloor (Rmax 0 (Rmin 255 (c * 255))) = k).
  { intros c k Hc Hk. rewrite Rmin_right, Rmax_right by lra. apply Zfloor_eq. exact Hk. }
  rewrite (H 0.3 76%Z), (H 0.9 229%Z), (H 0.2 51%Z) by lra. reflexivity.
Qed.

Lemma encode_bind_length (fb : list Vec3f) :
  length (fb ≫= encode_pixel) = (3 * length fb)%nat.
Proof.
  induction fb as [|a fb IH]; [reflexivity|].
  rewrite bind_cons, length_app, IH. cbn. lia.
Qed.

Lemma encode_bind_lookup (fb : list Vec3f) : forall p c color,
  fb !! p = Some color -> (c < 3)%nat ->
  (fb ≫= encode_pixel) !! (3 * p + c)%nat = encode_pixel color !! c.
Proof.
  induction fb as [|a fb IH]; intros p c color Hp Hc; [inversion Hp|].
  rewrite bind_cons. destruct p as [|p].
  - cbn in Hp. injection Hp as ->. rewrite Nat.mul_0_r, Nat.add_0_l.
    apply lookup_app_l. cbn. exact Hc.
  - cbn in Hp. rewrite lookup_app_r by (cbn; lia).
    replace (3 * S p + c - length (encode_pixel a))%nat with (3 * p + c)%nat by (cbn; lia).
    apply IH; assumption.
Qed.

Lemma convert_framebuffer_to_pixels_frame (fb : list Vec3f) width height :
  (0 <= width <= int_max)%Z -> (0 <= height <= int_max)%Z ->
  (width * height * 3 <= int_max)%Z ->
  length fb = Z.to_nat (width * height) ->
  convert_framebuffer_to_pixels fb width height = Returned (fb ≫= encode_pixel).
Proof.
  intros Hw Hh Hwh Hlen. unfold int_max in *.
  assert (0 <= width * height)%Z as Hnn by (apply Z.mul_nonneg_nonneg; lia).
  unfold convert_framebuffer_to_pixels.
  rewrite int_mul_in_range by (unfold int_min, int_max; lia). cbn.
  rewrite int_mul_in_range by (unfold int_min, int_max; lia). cbn.
  rewrite vector_new_fits by (try (change ((2 ^ 63 - 1) `div` 1)%Z with 9223372036854775807%Z); lia).
  cbn.
  set (buf := replicate (Z.to_nat (width * height * 3)) 0%Z).
  rewrite <- (for_each_nested (loop_range height) (loop_range width)
                (fun ji px => convert_pixel fb width ji.1 ji.2 px)).
  fold (iteration_space width height).
  (* the three writes of one pixel *)
  set (W := fun ji : Z * Z =>
              match fb !! Z.to_nat (ji.2 + ji.1 * width) with
              | Some color =>
                  [((ji.2 + ji.1 * width) * 3, encode_channel color.(x));
                   ((ji.2 + ji.1 * width) * 3 + 1, encode_channel color.(y));
                   ((ji.2 + ji.1 * width) * 3 + 2, encode_channel color.(z))]%Z
              | None => []
              end).
  assert (Hmem : forall j i, (j, i) ∈ iteration_space width height ->
            (0 <= j < height)%Z /\ (0 <= i < width)%Z).
  { intros j i Hin. apply elem_of_iteration_space in Hin; [exact Hin | lia | lia]. }
  rewrite (for_each_as_writes _ _ W).
  2:{ intros [j i] b Hin. destruct (Hmem j i Hin) as [Hj Hi].
      pose proof (cell_index_bound width height i j Hi Hj) as Hb.
      unfold convert_pixel, W. cbn [fst snd].
      rewrite (to_size_t_small width) by lia.
      rewrite (to_size_t_small (i + j * width)) by lia.
      replace (j * width + i)%Z with (i + j * width)%Z by lia.
      rewrite (to_size_t_small ((i + j * width) * 3)) by lia.
      rewrite (to_size_t_small ((i + j * width) * 3 + 1)) by lia.
      rewrite (to_size_t_small ((i + j * width) * 3 + 2)) by lia.
      unfold load.
      destruct (fb !! Z.to_nat (i + j * width)) as [color|] eqn:Hc.
      - cbn. unfold apply_writes. cbn [for_each fst snd].
        destruct (store b _ _) as [b1| |]; cbn; [|reflexivity|reflexivity].
        destruct (store b1 _ _) as [b2| |]; cbn; [|reflexivity|reflexivity].
        symmetry. apply outcome_bind_ret.
      - apply lookup_ge_None_1 in Hc. lia. }
  assert (Hw_elem : forall w, w ∈ iteration_space width height ≫= W ->
            exists p c color, (p < Z.to_nat (width * height))%nat /\ (c < 3)%nat /\
              fb !! p = Some color /\ Z.to_nat w.1 = (3 * p + c)%nat /\
              encode_pixel color !! c = Some w.2).
  { intros w Hin. apply list_elem_of_bind in Hin as ([j i] & Hin & Hji).
    destruct (Hmem j i Hji) as [Hj Hi].
    pose proof (cell_index_bound width height i j Hi Hj) as Hb.
    unfold W in Hin. cbn [fst snd] in Hin.
    destruct (fb !! Z.to_nat (i + j * width)) as [color|] eqn:Hc; [|inversion Hin].
    exists (Z.to_nat (i + j * width)).
    repeat (apply elem_of_cons in Hin as [->|Hin]); [exists 0%nat|exists 1%nat|exists 2%nat|inversion Hin];
      exists color; cbn [fst snd]; repeat split; try lia; try exact Hc; reflexivity. }
  destruct (apply_writes_spec (iteration_space width height ≫= W) buf)
    as (buf' & Hret & Hlen' & Hset & _).
  - apply Forall_forall. intros w Hin.
    destruct (Hw_elem w Hin) as (p & c & color & Hp & Hc & _ & Hidx & _).
    rewrite Hidx. unfold buf. rewrite length_replicate. lia.
  - intros a b Ha Hb Heq.
    destruct (Hw_elem a Ha) as (p & c & color & _ & Hc & Hcol & Hidx & Hval).
    destruct (Hw_elem b Hb) as (p' & c' & color' & _ & Hc' & Hcol' & Hidx' & Hval').
    assert (p = p' /\ c = c') as [-> ->] by lia.
    rewrite Hcol in Hcol'. injection Hcol' as <-.
    rewrite Hval in Hval'. injection Hval' as ->. reflexivity.
  - rewrite Hret. f_equal. apply list_eq. intros k.
    destruct (decide (k < Z.to_nat (width * height * 3))%nat) as [Hk|Hk].
    + set (p := (k / 3)%nat). set (c := (k mod 3)%nat).
      assert (Hkpc : k = (3 * p + c)%nat) by (apply Nat.div_mod_eq).
      assert (Hc : (c < 3)%nat) by (apply Nat.mod_upper_bound; lia).
      assert (Hp : (p < Z.to_nat (width * height))%nat) by lia.
      destruct (fb !! p) as [color|] eqn:Hcol; [|apply lookup_ge_None_1 in Hcol; lia].
      rewrite Hkpc at 2. rewrite (encode_bind_lookup fb p c color Hcol Hc).
      destruct (cell_of_index width height (Z.of_nat p)) as (Hi & Hj & Hpp); [lia | lia |].
      set (i := (Z.of_nat p `mod` width)%Z) in *. set (j := (Z.of_nat p `div` width)%Z) in *.
      assert (Hin : (j, i) ∈ iteration_space width height)
        by (apply elem_of_iteration_space; lia).
      assert (Hcol' : fb !! Z.to_nat (i + j * width) = Some color).
      { rewrite <- Hpp, Nat2Z.id. exact Hcol. }
      assert (HW : forall w, w ∈ W (j, i) -> w ∈ iteration_space width height ≫= W).
      { intros w Hw'. apply list_elem_of_bind. exists (j, i). split; assumption. }
      unfold W in HW. cbn [fst snd] in HW. rewrite Hcol' in HW.
      destruct c as [|[|[|c]]]; [| | |lia].
      * specialize (HW (_, _) ltac:(apply elem_of_cons; left; reflexivity)).
        apply Hset in HW. cbn [fst snd] in HW.
        replace (Z.to_nat ((i + j * width) * 3)) with k in HW by lia. exact HW.
      * specialize (HW (_, _) ltac:(apply elem_of_cons; right; apply elem_of_cons; left; reflexivity)).
        apply Hset in HW. cbn [fst snd] in HW.
        replace (Z.to_nat ((i + j * width) * 3 + 1)) with k in HW by lia. exact HW.
      * specialize (HW (_, _) ltac:(apply elem_of_cons; right; apply elem_of_cons; right;
                                      apply elem_of_cons; left; reflexivity)).
        apply Hset in HW. cbn [fst snd] in HW.
        replace (Z.to_nat ((i + j * width) * 3 + 2)) with k in HW by lia. exact HW.
    + rewrite !(lookup_ge_None_2); [reflexivity | |].
      * rewrite encode_bind_length, Hlen. lia.
      * rewrite Hlen'. unfold buf. rewrite length_replicate. lia.
Qed.

(** ** The render entry point and its parameters *)

Lemma render_framebuffer_frame width height fov :
  (0 <= width <= int_max)%Z -> (0 <= height <= int_max)%Z ->
  (width * height <= int_max)%Z ->
  render_framebuffer width height fov = Returned (rendered_frame width height fov).
Proof.
  intros Hw Hh Hwh. rewrite render_framebuffer_is_omp.
  apply render_framebuffer_omp_frame; [assumption..|reflexivity].
Qed.

(** With both dimensions negative the product is positive, a small buffer
    is allocated, and the loops, whose bounds are converted to [size_t],
    run past its end. *)
Lemma render_framebuffer_both_negative fov :
  render_framebuffer (-1) (-1) fov = Undefined.
Proof.
  unfold render_framebuffer.
  change (int_mul (-1) (-1)) with (Returned 1%Z). cbn [mbind outcome_bind].
  change (vector_new 12 vec3f_zero 1) with (Returned [vec3f_zero]). cbn [mbind outcome_bind].
  assert (Hrow : for_each (loop_range (-1)) (render_pixel (-1) (-1) fov 0) [vec3f_zero]
                 = Undefined).
  { unfold loop_range. change (to_size_t (-1)) with (2 ^ 64 - 1)%Z.
    rewrite (seqZ_cons 0) by reflexivity.
    rewrite (seqZ_cons (Z.succ 0)) by reflexivity.
    cbn [for_each]. unfold render_pixel, store.
    change (to_size_t (0 + 0 * to_size_t (-1))) with 0%Z.
    change (to_size_t (Z.succ 0 + 0 * to_size_t (-1))) with 1%Z.
    destruct (decide (Z.to_nat 0 < length [vec3f_zero])%nat) as [_|Hn]; [|cbn in Hn; lia].
    cbn [mbind outcome_bind]. rewrite length_insert.
    destruct (decide (Z.to_nat 1 < length [vec3f_zero])%nat) as [Hlt|_]; [cbn in Hlt; lia|].
    reflexivity. }
  unfold loop_range at 1. change (to_size_t (-1)) with (2 ^ 64 - 1)%Z.
  rewrite (seqZ_cons 0) by reflexivity. cbn [for_each].
  rewrite Hrow. reflexivity.
Qed.

(** A frame of width zero is returned, empty, without complaint. *)
Lemma render_framebuffer_zero_width_returns :
  render_framebuffer 0 480 (PI / 3) = Returned [].
Proof.
  rewrite render_framebuffer_frame by (unfold int_max; lia). reflexivity.
Qed.

(** C2: [render_framebuffer] validates nothing itself.  A negative
    [width * height] is stopped by the vector constructor, before any pixel
    is computed; non-negative dimensions, zero included, always return the
    complete frame of [width * height] colours. *)
Theorem render_framebuffer_parameters width height fov :
  ((int_min <= width * height < 0)%Z ->
     render_framebuffer width height fov = Thrown_length_error) /\
  ((0 <= width <= int_max)%Z -> (0 <= height <= int_max)%Z ->
   (width * height <= int_max)%Z ->
     exists fb, render_framebuffer width height fov = Returned fb /\
       length fb = Z.to_nat (width * height) /\
       (width = 0%Z \/ height = 0%Z -> fb = []) /\
       (forall i j, (0 <= i < width)%Z -> (0 <= j < height)%Z ->
          fb !! Z.to_nat (i + j * width) = Some (pixel_color width height fov i j))).
Proof.
  split.
  - intros Hneg. unfold render_framebuffer.
    rewrite int_mul_in_range by (unfold int_min, int_max in *; lia). cbn.
    rewrite vector_new_negative by (assumption || lia). reflexivity.
  - intros Hw Hh Hwh. exists (rendered_frame width height fov).
    split; [apply render_framebuffer_frame; assumption|].
    split; [apply rendered_frame_length|]. split.
    + intros Hz. apply length_zero_iff_nil. rewrite rendered_frame_length.
      destruct Hz as [-> | ->]; [rewrite Z.mul_0_l | rewrite Z.mul_0_r]; reflexivity.
    + intros i j Hi Hj. apply rendered_frame_lookup; assumption.
Qed.

Lemma render_framebuffer_parameters_witness :
  render_framebuffer (-1) 480 (PI / 3) = Thrown_length_error /\
  exists fb, render_framebuffer 640 480 (PI / 3) = Returned fb /\
    length fb = Z.to_nat (640 * 480) /\
    (640 = 0 \/ 480 = 0 -> fb = [])%Z /\
    (forall i j, (0 <= i < 640)%Z -> (0 <= j < 480)%Z ->
       fb !! Z.to_nat (i + j * 640) = Some (pixel_color 640 480 (PI / 3) i j)).
Proof.
  split.
  - apply (render_framebuffer_parameters (-1) 480 (PI / 3)). unfold int_min. lia.
  - apply (render_framebuffer_parameters 640 480 (PI / 3)); unfold int_max; lia.
Defined.

(** ** PixelEncoder: the bytes of a frame *)

(** C6: for a framebuffer of [width * height] colours the encoder returns
    the concatenation, in framebuffer order, of the three bytes of each
    colour: [3 * width * height] bytes in [0, 255], each the floor of its
    channel scaled by 255 and clamped to [0, 255], pixel [(i, j)] at offset
    [3 * (j * width + i)]. *)
Theorem convert_framebuffer_to_pixels_encodes (fb : list Vec3f) width height :
  (0 <= width <= int_max)%Z -> (0 <= height <= int_max)%Z ->
  (width * height * 3 <= int_max)%Z ->
  length fb = Z.to_nat (width * height) ->
  convert_framebuffer_to_pixels fb width height = Returned (fb ≫= encode_pixel) /\
  length (fb ≫= encode_pixel) = Z.to_nat (width * height * 3) /\
  Forall (fun b => (0 <= b <= 255)%Z) (fb ≫= encode_pixel) /\
  (forall i j color, (0 <= i < width)%Z -> (0 <= j < height)%Z ->
     fb !! Z.to_nat (i + j * width) = Some color ->
     let pixelIndex := Z.to_nat ((j * width + i) * 3) in
     (fb ≫= encode_pixel) !! pixelIndex
       = Some (Zfloor (Rmax 0 (Rmin 255 (color.(x) * 255)))) /\
     (fb ≫= encode_pixel) !! (pixelIndex + 1)%nat
       = Some (Zfloor (Rmax 0 (Rmin 255 (color.(y) * 255)))) /\
     (fb ≫= encode_pixel) !! (pixelIndex + 2)%nat
       = Some (Zfloor (Rmax 0 (Rmin 255 (color.(z) * 255))))).
Proof.
  intros Hw Hh Hwh Hlen.
  assert (0 <= width * height)%Z as Hnn by (apply Z.mul_nonneg_nonneg; lia).
  split; [apply convert_framebuffer_to_pixels_frame; assumption|].
  split; [rewrite encode_bind_length, Hlen; lia|]. split.
  - apply Forall_bind, Forall_forall. intros color _.
    unfold encode_pixel. repeat apply Forall_cons_2; try apply encode_channel_range.
    apply Forall_nil_2.
  - intros i j color Hi Hj Hc pixelIndex.
    pose proof (cell_index_bound width height i j Hi Hj) as Hb.
    assert (Hpi : pixelIndex = (3 * Z.to_nat (i + j * width) + 0)%nat)
      by (unfold pixelIndex; lia).
    rewrite <- !encode_channel_floor. repeat split.
    + rewrite Hpi. apply (encode_bind_lookup fb _ 0 color Hc). lia.
    + replace (pixelIndex + 1)%nat with (3 * Z.to_nat (i + j * width) + 1)%nat by lia.
      apply (encode_bind_lookup fb _ 1 color Hc). lia.
    + replace (pixelIndex + 2)%nat with (3 * Z.to_nat (i + j * width) + 2)%nat by lia.
      apply (encode_bind_lookup fb _ 2 color Hc). lia.
Qed.

Lemma convert_framebuffer_to_pixels_encodes_witness :
  convert_framebuffer_to_pixels sample_frame 2 1
    = Returned (sample_frame ≫= encode_pixel) /\
  length (sample_frame ≫= encode_pixel) = Z.to_nat (2 * 1 * 3) /\
  Forall (fun b => (0 <= b <= 255)%Z) (sample_frame ≫= encode_pixel) /\
  (forall i j color, (0 <= i < 2)%Z -> (0 <= j < 1)%Z ->
     sample_frame !! Z.to_nat (i + j * 2) = Some color ->
     let pixelIndex := Z.to_nat ((j * 2 + i) * 3) in
     (sample_frame ≫= encode_pixel) !! pixelIndex
       = Some (Zfloor (Rmax 0 (Rmin 255 (color.(x) * 255)))) /\
     (sample_frame ≫= encode_pixel) !! (pixelIndex + 1)%nat
       = Some (Zfloor (Rmax 0 (Rmin 255 (color.(y) * 255)))) /\
     (sample_frame ≫= encode_pixel) !! (pixelIndex + 2)%nat
       = Some (Zfloor (Rmax 0 (Rmin 255 (color.(z) * 255))))).
Proof.
  apply (convert_framebuffer_to_pixels_encodes sample_frame 2 1);
    unfold int_max; (lia || reflexivity).
Defined.

(** ** Determinism of a render *)

(** C5: whatever order the parallel loop takes its iterations in, the
    render of given [width], [height] and [fov] returns one and the same
    pixel buffer, that of the sequential program. *)
Theorem render_deterministic width height fov (sched1 sched2 : list (Z * Z)) :
  (0 <= width <= int_max)%Z -> (0 <= height <= int_max)%Z ->
  (width * height * 3 <= int_max)%Z ->
  sched1 ≡ₚ iteration_space width height ->
  sched2 ≡ₚ iteration_space width height ->
  render_omp sched1 width height fov = render_omp sched2 width height fov /\
  render_omp sched1 width height fov = render width height fov /\
  render width height fov
    = Returned (rendered_frame width height fov ≫= encode_pixel).
Proof.
  intros Hw Hh Hwh H1 H2.
  assert (0 <= width * height)%Z as Hnn by (apply Z.mul_nonneg_nonneg; lia).
  assert (Hr : forall sched, sched ≡ₚ iteration_space width height ->
            render_omp sched width height fov
            = Returned (rendered_frame width height fov ≫= encode_pixel)).
  { intros sched Hs. unfold render_omp.
    rewrite render_framebuffer_omp_frame by (assumption || lia). cbn.
    apply convert_framebuffer_to_pixels_frame; try assumption.
    apply rendered_frame_length. }
  assert (Hseq : render width height fov
                 = Returned (rendered_frame width height fov ≫= encode_pixel)).
  { unfold render. rewrite render_framebuffer_is_omp. apply (Hr _ (reflexivity _)). }
  rewrite (Hr sched1 H1), (Hr sched2 H2), Hseq. repeat split.
Qed.

Lemma render_deterministic_witness :
  render_omp [(0, 0); (0, 1); (1, 0); (1, 1)]%Z 2 2 (PI / 3)
    = render_omp [(0, 1); (0, 0); (1, 0); (1, 1)]%Z 2 2 (PI / 3) /\
  render_omp [(0, 0); (0, 1); (1, 0); (1, 1)]%Z 2 2 (PI / 3) = render 2 2 (PI / 3) /\
  render 2 2 (PI / 3) = Returned (rendered_frame 2 2 (PI / 3) ≫= encode_pixel).
Proof.
  apply (render_deterministic 2 2 (PI / 3)); try (unfold int_max; lia).
  - reflexivity.
  - change (iteration_space 2 2) with [(0, 0); (0, 1); (1, 0); (1, 1)]%Z.
    apply perm_swap.
Defined.

(** * Further properties of the code *)

(** ** VectorMath: lengths and angles *)

Lemma vec3f_norm_pos v : 0 <= vec3f_norm v.
Proof. apply sqrt_pos. Qed.

Lemma dot_self_norm v : vec3f_dot v v = vec3f_norm v * vec3f_norm v.
Proof. rewrite vec3f_norm_sqr. reflexivity. Qed.

Lemma dot_squared_le a b :
  vec3f_dot a b * vec3f_dot a b <= vec3f_dot a a * vec3f_dot b b.
Proof.
  unfold vec3f_dot. destruct a as [a1 a2 a3], b as [b1 b2 b3]; cbn [x y z].
  pose proof (Rle_0_sqr (a1 * b2 - a2 * b1)).
  pose proof (Rle_0_sqr (a1 * b3 - a3 * b1)).
  pose proof (Rle_0_sqr (a2 * b3 - a3 * b2)).
  unfold Rsqr in *. nra.
Qed.

Lemma dot_le_norms a b : Rabs (vec3f_dot a b) <= vec3f_norm a * vec3f_norm b.
Proof.
  pose proof (dot_squared_le a b) as H. rewrite !dot_self_norm in H.
  pose proof (vec3f_norm_pos a) as Ha. pose proof (vec3f_norm_pos b) as Hb.
  set (na := vec3f_norm a) in *. set (nb := vec3f_norm b) in *.
  set (d := vec3f_dot a b) in *.
  assert (Hs : Rsqr d <= Rsqr (na * nb)) by (unfold Rsqr; nra).
  apply Rsqr_le_abs_0 in Hs.
  rewrite (Rabs_pos_eq (na * nb)) in Hs by nra. exact Hs.
Qed.







(** ** lerp *)



(** ** rotate *)


(** ** noise on the lattice *)








(** ** DistanceField: where the surface can be *)


(** ** RayMarcher: where a trace can start, end and miss *)

Lemma vec3f_norm_le_of_sqr a b :
  vec3f_dot a a <= vec3f_dot b b -> vec3f_norm a <= vec3f_norm b.
Proof. intros H. unfold vec3f_norm. apply sqrt_le_1_alt. exact H. Qed.

(** Along a ray that does not point back towards the centre the distance
    to the centre does not decrease. *)
Lemma receding_ray_norm orig dir t :
  0 <= vec3f_dot orig dir -> 0 <= t ->
  vec3f_norm orig <= vec3f_norm (vec3f_add orig (vec3f_scale dir t)).
Proof.
  intros Hd Ht. apply vec3f_norm_le_of_sqr.
  unfold vec3f_dot, vec3f_add, vec3f_scale in *. cbn [x y z].
  pose proof (Rle_0_sqr (x dir * t)). pose proof (Rle_0_sqr (y dir * t)).
  pose proof (Rle_0_sqr (z dir * t)). unfold Rsqr in *.
  assert (0 <= t * (x orig * x dir + y orig * y dir + z orig * z dir)) by nra.
  nra.
Qed.

Lemma sphere_trace_receding orig dir :
  1.5 <= vec3f_norm orig -> 0 <= vec3f_dot orig dir ->
  sphere_trace orig dir = None.
Proof.
  intros Ho Hd. unfold sphere_trace.
  pose proof (trace_loop_spec 128 dir orig) as H.
  destruct (trace_loop 128 dir orig) as [p|]; [|reflexivity].
  destruct H as (k & _ & -> & Hneg & _).
  rewrite trace_pos_on_ray in Hneg.
  pose proof (receding_ray_norm orig dir _ Hd (travelled_nonneg k dir orig)) as Hn.
  pose proof (signed_distance_bounds
                (vec3f_add orig (vec3f_scale dir (travelled k dir orig)))) as Hb.
  lra.
Qed.

Lemma vec3f_norm_3_up : vec3f_norm {| x := 0; y := 0; z := 3 |} = 3.
Proof. rewrite vec3f_norm_z_axis. apply Rabs_pos_eq. lra. Qed.

(** X10: a trace that starts within distance 0.5 of the centre returns its
    origin at once, whatever the direction. *)
Theorem sphere_trace_from_core orig dir :
  vec3f_norm orig < 0.5 -> sphere_trace orig dir = Some orig.
Proof.
  intros Ho. apply sphere_trace_inside.
  pose proof (signed_distance_bounds orig). lra.
Qed.

Lemma sphere_trace_from_core_witness :
  sphere_trace (make_vec3f 0 0 0) {| x := 1; y := 0; z := 0 |} = Some (make_vec3f 0 0 0).
Proof.
  apply (sphere_trace_from_core (make_vec3f 0 0 0) {| x := 1; y := 0; z := 0 |}).
  rewrite vec3f_norm_zero. lra.
Defined.

(** X11: a ray that starts at distance 1.5 or more from the centre and does
    not point back towards it ([dot orig dir >= 0]) is reported as a miss. *)
Theorem sphere_trace_receding_misses orig dir :
  1.5 <= vec3f_norm orig -> 0 <= vec3f_dot orig dir ->
  sphere_trace orig dir = None.
Proof. apply sphere_trace_receding. Qed.

Lemma sphere_trace_receding_misses_witness :
  sphere_trace {| x := 0; y := 0; z := 3 |} {| x := 1; y := 0; z := 0 |} = None.
Proof.
  apply (sphere_trace_receding_misses {| x := 0; y := 0; z := 3 |} {| x := 1; y := 0; z := 0 |}).
  - rewrite vec3f_norm_3_up. lra.
  - unfold vec3f_dot; cbn [x y z]. lra.
Defined.







(** ** FrameRenderer: camera rays and shading *)

Lemma vec3f_norm_normalize_le v : vec3f_norm (vec3f_normalize v) <= 1.
Proof.
  destruct (Rlt_dec 0 (vec3f_norm v)) as [Hpos|Hz].
  - rewrite vec3f_norm_normalize by exact Hpos. lra.
  - unfold vec3f_normalize. destruct (Rlt_dec 0 (vec3f_norm v)); [contradiction|].
    rewrite vec3f_norm_zero. lra.
Qed.

Lemma pixel_color_ray width height fov i j :
  pixel_color width height fov i j =
  match sphere_trace {| x := 0; y := 0; z := 3 |} (pixel_direction width height fov i j) with
  | Some hit =>
      vec3f_scale {| x := 1; y := 1; z := 1 |}
        (Rmax 0.4 (vec3f_dot
                     (vec3f_normalize (vec3f_sub {| x := 0; y := 10; z := 10 |} hit))
                     (distance_field_normal hit)))
  | None => {| x := 0.3; y := 0.9; z := 0.2 |}
  end.
Proof. reflexivity. Qed.




Lemma shade_range hit :
  let c := Rmax 0.4 (vec3f_dot
                       (vec3f_normalize (vec3f_sub {| x := 0; y := 10; z := 10 |} hit))
                       (distance_field_normal hit)) in
  0.4 <= c <= 1.
Proof.
  intros c. unfold c. split; [apply Rmax_l|].
  apply Rmax_lub; [lra|].
  set (l := vec3f_normalize _).
  pose proof (dot_le_norms l (distance_field_normal hit)) as Hcs.
  pose proof (Rle_abs (vec3f_dot l (distance_field_normal hit))) as Ha.
  pose proof (vec3f_norm_normalize_le (vec3f_sub {| x := 0; y := 10; z := 10 |} hit)) as Hl.
  fold l in Hl.
  assert (Hn : vec3f_norm (distance_field_normal hit) <= 1)
    by (unfold distance_field_normal; cbv zeta; apply vec3f_norm_normalize_le).
  pose proof (vec3f_norm_pos l). pose proof (vec3f_norm_pos (distance_field_normal hit)).
  nra.
Qed.

Lemma pixel_color_cases width height fov i j :
  pixel_color width height fov i j = {| x := 0.3; y := 0.9; z := 0.2 |} \/
  exists c, 0.4 <= c <= 1 /\
            pixel_color width height fov i j = {| x := c; y := c; z := c |}.
Proof.
  rewrite pixel_color_ray.
  destruct (sphere_trace _ _) as [hit|]; [right | left; reflexivity].
  eexists. split; [apply (shade_range hit)|].
  apply vec3f_eq; cbn [x y z vec3f_scale]; ring.
Qed.



(** ** PixelEncoder: quantisation *)

Lemma encode_channel_mono c1 c2 : c1 <= c2 -> (encode_channel c1 <= encode_channel c2)%Z.
Proof.
  intros H. rewrite !encode_channel_floor. apply Zfloor_le.
  apply Rle_max_compat_l, Rle_min_compat_l. lra.
Qed.

Lemma encode_channel_low c : c <= 0 -> encode_channel c = 0%Z.
Proof.
  intros H. rewrite encode_channel_floor.
  rewrite Rmin_right by lra. rewrite Rmax_left by lra. apply (ZfloorZ 0).
Qed.

Lemma encode_channel_high c : 1 <= c -> encode_channel c = 255%Z.
Proof.
  intros H. rewrite encode_channel_floor.
  rewrite Rmin_left by lra. rewrite Rmax_right by lra. apply (ZfloorZ 255).
Qed.

Lemma encode_channel_unit c :
  0 <= c <= 1 -> IZR (encode_channel c) <= c * 255 < IZR (encode_channel c) + 1.
Proof.
  intros H. rewrite encode_channel_floor.
  rewrite Rmin_right by lra. rewrite Rmax_right by lra. apply Zfloor_bound.
Qed.

(** X16: the encoding of a channel is monotone, saturates to 0 for values
    up to zero and to 255 for values from one on, and inside [0, 1] loses
    less than one level: the byte [b] of [c] satisfies
    [b <= 255 c < b + 1]. *)
Theorem encode_channel_quantises :
  (forall c1 c2, c1 <= c2 -> (encode_channel c1 <= encode_channel c2)%Z) /\
  (forall c, c <= 0 -> encode_channel c = 0%Z) /\
  (forall c, 1 <= c -> encode_channel c = 255%Z) /\
  (forall c, 0 <= c <= 1 ->
     IZR (encode_channel c) <= c * 255 < IZR (encode_channel c) + 1).
Proof.
  split; [exact encode_channel_mono|]. split; [exact encode_channel_low|].
  split; [exact encode_channel_high | exact encode_channel_unit].
Qed.

(** ** The bytes of a rendered image *)

Lemma render_returns width height fov :
  (0 <= width <= int_max)%Z -> (0 <= height <= int_max)%Z ->
  (width * height * 3 <= int_max)%Z ->
  render width height fov = Returned (rendered_frame width height fov ≫= encode_pixel).
Proof.
  intros Hw Hh Hwh.
  assert (0 <= width * height)%Z as Hnn by (apply Z.mul_nonneg_nonneg; lia).
  unfold render. rewrite render_framebuffer_frame by (assumption || lia). cbn.
  apply convert_framebuffer_to_pixels_frame; try assumption.
  apply rendered_frame_length.
Qed.

Lemma encode_pixel_grey c :
  0.4 <= c <= 1 ->
  exists b, (102 <= b <= 255)%Z /\ encode_pixel {| x := c; y := c; z := c |} = [b; b; b].
Proof.
  intros Hc. exists (encode_channel c). split; [|reflexivity].
  pose proof (encode_channel_range c). split; [|lia].
  rewrite encode_channel_floor. apply (Zfloor_lub 102).
  rewrite Rmin_right by lra. rewrite Rmax_right by lra. lra.
Qed.

(** X17: in the image returned by a render every pixel is either the three
    bytes 76, 229, 51 of the background or a grey of three equal bytes
    between 102 and 255. *)
Theorem render_pixel_bytes width height fov pixels i j :
  (0 <= width <= int_max)%Z -> (0 <= height <= int_max)%Z ->
  (width * height * 3 <= int_max)%Z ->
  render width height fov = Returned pixels ->
  (0 <= i < width)%Z -> (0 <= j < height)%Z ->
  let pixelIndex := Z.to_nat ((j * width + i) * 3) in
  exists r g b,
    pixels !! pixelIndex = Some r /\ pixels !! (pixelIndex + 1)%nat = Some g /\
    pixels !! (pixelIndex + 2)%nat = Some b /\
    ((r, g, b) = (76, 229, 51)%Z \/ (r = g /\ g = b /\ 102 <= b <= 255)%Z).
Proof.
  intros Hw Hh Hwh Hret Hi Hj pixelIndex.
  rewrite render_returns in Hret by assumption. injection Hret as <-.
  pose proof (cell_index_bound width height i j Hi Hj) as Hb.
  pose proof (rendered_frame_lookup width height fov i j Hi Hj) as Hc.
  set (fb := rendered_frame width height fov) in *.
  set (color := pixel_color width height fov i j) in *.
  assert (Hpi : pixelIndex = (3 * Z.to_nat (i + j * width))%nat)
    by (unfold pixelIndex; lia).
  assert (H0 : (fb ≫= encode_pixel) !! pixelIndex = encode_pixel color !! 0%nat).
  { rewrite Hpi. rewrite <- (encode_bind_lookup fb _ 0 color Hc) by lia. f_equal. lia. }
  assert (H1 : (fb ≫= encode_pixel) !! (pixelIndex + 1)%nat = encode_pixel color !! 1%nat).
  { rewrite Hpi. apply (encode_bind_lookup fb _ 1 color Hc). lia. }
  assert (H2 : (fb ≫= encode_pixel) !! (pixelIndex + 2)%nat = encode_pixel color !! 2%nat).
  { rewrite Hpi. apply (encode_bind_lookup fb _ 2 color Hc). lia. }
  rewrite H0, H1, H2.
  destruct (pixel_color_cases width height fov i j) as [Hbg | (c & Hc01 & Hgrey)];
    fold color in Hbg || fold color in Hgrey.
  - rewrite Hbg, encode_pixel_background. exists 76%Z, 229%Z, 51%Z.
    repeat split; try reflexivity. left; reflexivity.
  - rewrite Hgrey. destruct (encode_pixel_grey c Hc01) as (b & Hb102 & ->).
    exists b, b, b. repeat split; try reflexivity. right. lia.
Qed.

Lemma render_pixel_bytes_witness :
  exists r g b,
    (rendered_frame 2 2 (PI / 3) ≫= encode_pixel) !! Z.to_nat ((1 * 2 + 0) * 3) = Some r /\
    (rendered_frame 2 2 (PI / 3) ≫= encode_pixel) !! (Z.to_nat ((1 * 2 + 0) * 3) + 1)%nat = Some g /\
    (rendered_frame 2 2 (PI / 3) ≫= encode_pixel) !! (Z.to_nat ((1 * 2 + 0) * 3) + 2)%nat = Some b /\
    ((r, g, b) = (76, 229, 51)%Z \/ (r = g /\ g = b /\ 102 <= b <= 255)%Z).
Proof.
  apply (render_pixel_bytes 2 2 (PI / 3) _ 0 1); try (unfold int_max; lia).
  apply render_returns; unfold int_max; lia.
Defined.

(** ** Buffers: what the loops read, and when they run off the end *)

Lemma for_each_ext {I S} (l : list I) (body1 body2 : I -> S -> outcome S) s :
  (forall i s', i ∈ l -> body1 i s' = body2 i s') ->
  for_each l body1 s = for_each l body2 s.
Proof.
  revert s. induction l as [|i l IH]; intros s Hext; [reflexivity|].
  cbn [for_each]. rewrite Hext by (apply elem_of_cons; left; reflexivity).
  destruct (body2 i s); cbn; [|reflexivity|reflexivity].
  apply IH. intros i' s' Hi'. apply Hext. apply elem_of_cons; right; exact Hi'.
Qed.

(** A loop whose body never throws, keeps an invariant of the buffer, and
    at one of its iterations fails on every buffer with the invariant, has
    undefined behaviour. *)
Lemma for_each_fails {I S} (Inv : S -> Prop) (l : list I)
  (body : I -> S -> outcome S) (e : I) s :
  (forall i s0, body i s0 <> Thrown_length_error) ->
  (forall i s0 s1, Inv s0 -> body i s0 = Returned s1 -> Inv s1) ->
  (forall s0, Inv s0 -> body e s0 = Undefined) ->
  e ∈ l -> Inv s -> for_each l body s = Undefined.
Proof.
  intros Hthrow Hinv Hfail. revert s. induction l as [|i l IH]; intros s He Hs.
  - inversion He.
  - cbn [for_each]. destruct (body i s) as [s1| |] eqn:Hb; cbn.
    + apply elem_of_cons in He as [->|He].
      * rewrite (Hfail s Hs) in Hb. discriminate.
      * apply IH; [exact He | exact (Hinv i s s1 Hs Hb)].
    + exfalso. exact (Hthrow i s Hb).
    + reflexivity.
Qed.

Lemma elem_of_iteration_space_size_t width height j i :
  (j, i) ∈ iteration_space width height <->
  (0 <= j < to_size_t height)%Z /\ (0 <= i < to_size_t width)%Z.
Proof.
  unfold iteration_space, loop_range. rewrite list_elem_of_bind. split.
  - intros (j' & Hin & Hj'). apply list_elem_of_bind in Hin as (i' & Hin & Hi').
    apply list_elem_of_singleton in Hin as [= -> ->].
    apply elem_of_seqZ in Hj', Hi'. lia.
  - intros [Hj Hi]. exists j. split; [|apply elem_of_seqZ; lia].
    apply list_elem_of_bind. exists i. split; [|apply elem_of_seqZ; lia].
    apply list_elem_of_singleton. reflexivity.
Qed.

Lemma store_length {A} (v v' : list A) idx a :
  store v idx a = Returned v' -> length v' = length v.
Proof.
  unfold store. destruct (decide _); [|discriminate].
  intros [= <-]. apply length_insert.
Qed.

Lemma store_not_thrown {A} (v : list A) idx a : store v idx a <> Thrown_length_error.
Proof. unfold store. destruct (decide _); discriminate. Qed.

Lemma store_past_end {A} (v : list A) idx a :
  (length v <= Z.to_nat idx)%nat -> store v idx a = Undefined.
Proof. intros H. unfold store. destruct (decide _); [lia | reflexivity]. Qed.

(** *** render_framebuffer with two negative dimensions *)

(** X18: with both dimensions negative [render_framebuffer] neither
    rejects its parameters nor throws: the product is positive, a buffer of
    that size is allocated, and the loops, whose bounds have become huge
    through the conversion to [size_t], write past its end. *)
Theorem render_framebuffer_negative_overrun width height fov :
  (int_min <= width < 0)%Z -> (int_min <= height < 0)%Z ->
  (width * height <= int_max)%Z ->
  render_framebuffer width height fov = Undefined.
Proof.
  intros Hw Hh Hwh. unfold int_min, int_max in *.
  assert (0 < width * height)%Z as Hpos by nia.
  rewrite render_framebuffer_is_omp. unfold render_framebuffer_omp.
  rewrite int_mul_in_range by (unfold int_min, int_max; lia). cbn.
  rewrite vector_new_fits by (try (change ((2 ^ 63 - 1) `div` 12)%Z with 768614336404564650%Z); lia).
  cbn.
  assert (Hsw : to_size_t width = (width + 2 ^ 64)%Z).
  { unfold to_size_t. symmetry. apply Z.mod_unique with (-1)%Z; lia. }
  assert (Hsh : to_size_t height = (height + 2 ^ 64)%Z).
  { unfold to_size_t. symmetry. apply Z.mod_unique with (-1)%Z; lia. }
  apply (for_each_fails (fun fb => length fb = Z.to_nat (width * height)) _ _
           (0, width * height)%Z).
  - intros [j i] fb. apply store_not_thrown.
  - intros [j i] fb fb' Hlen Hst. apply store_length in Hst. lia.
  - intros fb Hlen. unfold render_pixel. cbn [fst snd]. apply store_past_end.
    rewrite Z.mul_0_l, Z.add_0_r, to_size_t_small by lia. lia.
  - apply elem_of_iteration_space_size_t. lia.
  - apply length_replicate.
Qed.

Lemma render_framebuffer_negative_overrun_witness :
  render_framebuffer (-640) (-480) (PI / 3) = Undefined.
Proof.
  apply (render_framebuffer_negative_overrun (-640) (-480) (PI / 3));
    unfold int_min, int_max; lia.
Defined.

(** *** convert_framebuffer_to_pixels and the length of its input *)

Lemma convert_pixel_agree (fb fb' : list Vec3f) width height j i px :
  (0 <= width <= int_max)%Z -> (width * height <= int_max)%Z ->
  (forall k, (k < Z.to_nat (width * height))%nat -> fb !! k = fb' !! k) ->
  (0 <= j < height)%Z -> (0 <= i < width)%Z ->
  convert_pixel fb width j i px = convert_pixel fb' width j i px.
Proof.
  intros Hw Hwh Hagree Hj Hi. unfold int_max in *.
  pose proof (cell_index_bound width height i j Hi Hj) as Hb.
  unfold convert_pixel, load.
  rewrite (to_size_t_small width) by lia.
  rewrite (to_size_t_small (i + j * width)) by lia.
  rewrite (Hagree (Z.to_nat (i + j * width))) by lia. reflexivity.
Qed.

Lemma convert_framebuffer_to_pixels_agree (fb fb' : list Vec3f) width height :
  (0 <= width <= int_max)%Z -> (0 <= height <= int_max)%Z ->
  (width * height <= int_max)%Z ->
  (forall k, (k < Z.to_nat (width * height))%nat -> fb !! k = fb' !! k) ->
  convert_framebuffer_to_pixels fb width height
  = convert_framebuffer_to_pixels fb' width height.
Proof.
  intros Hw Hh Hwh Hagree. unfold convert_framebuffer_to_pixels.
  destruct (int_mul width height) as [n| |]; cbn; [|reflexivity|reflexivity].
  destruct (int_mul n 3) as [n3| |]; cbn; [|reflexivity|reflexivity].
  destruct (vector_new 1 0%Z n3) as [buf| |]; cbn; [|reflexivity|reflexivity].
  rewrite <- (for_each_nested (loop_range height) (loop_range width)
                (fun ji px => convert_pixel fb width ji.1 ji.2 px)).
  rewrite <- (for_each_nested (loop_range height) (loop_range width)
                (fun ji px => convert_pixel fb' width ji.1 ji.2 px)).
  fold (iteration_space width height).
  apply for_each_ext. intros [j i] px Hin. cbn [fst snd].
  unfold int_max in *.
  apply elem_of_iteration_space in Hin as [Hj Hi]; [|lia|lia].
  apply (convert_pixel_agree fb fb' width height); unfold int_max; assumption || lia.
Qed.

(** X19: only the first [width * height] entries of the framebuffer are
    read: two framebuffers that agree there give the same result, and a
    framebuffer with at least that many entries is encoded as its prefix of
    that length. *)
Theorem convert_framebuffer_to_pixels_prefix (fb : list Vec3f) width height :
  (0 <= width <= int_max)%Z -> (0 <= height <= int_max)%Z ->
  (width * height * 3 <= int_max)%Z ->
  (Z.to_nat (width * height) <= length fb)%nat ->
  convert_framebuffer_to_pixels fb width height
  = Returned (take (Z.to_nat (width * height)) fb ≫= encode_pixel) /\
  (forall fb' : list Vec3f,
     (forall k, (k < Z.to_nat (width * height))%nat -> fb !! k = fb' !! k) ->
     convert_framebuffer_to_pixels fb' width height
     = convert_framebuffer_to_pixels fb width height).
Proof.
  intros Hw Hh Hwh Hlen.
  assert (0 <= width * height)%Z as Hnn by (apply Z.mul_nonneg_nonneg; lia).
  split.
  - rewrite (convert_framebuffer_to_pixels_agree fb (take (Z.to_nat (width * height)) fb))
      by (try assumption; try lia; intros k Hk; symmetry; apply lookup_take_lt; exact Hk).
    apply convert_framebuffer_to_pixels_frame; try assumption.
    rewrite length_take. lia.
  - intros fb' Hagree. symmetry.
    apply convert_framebuffer_to_pixels_agree; assumption || lia.
Qed.

Lemma convert_framebuffer_to_pixels_prefix_witness :
  convert_framebuffer_to_pixels sample_frame 1 1
  = Returned (take (Z.to_nat (1 * 1)) sample_frame ≫= encode_pixel) /\
  (forall fb' : list Vec3f,
     (forall k, (k < Z.to_nat (1 * 1))%nat -> sample_frame !! k = fb' !! k) ->
     convert_framebuffer_to_pixels fb' 1 1
     = convert_framebuffer_to_pixels sample_frame 1 1).
Proof.
  apply (convert_framebuffer_to_pixels_prefix sample_frame 1 1);
    unfold int_max; try lia. cbn. lia.
Defined.

Lemma convert_pixel_invariant fb width j i (px px' : list Z) :
  convert_pixel fb width j i px = Returned px' -> length px' = length px.
Proof.
  unfold convert_pixel. destruct (load fb _) as [color| |]; cbn; try discriminate.
  destruct (store px _ _) as [p1| |] eqn:H1; cbn; try discriminate.
  destruct (store p1 _ _) as [p2| |] eqn:H2; cbn; try discriminate.
  intros H3. apply store_length in H1, H2, H3. lia.
Qed.

Lemma convert_pixel_not_thrown fb width j i (px : list Z) :
  convert_pixel fb width j i px <> Thrown_length_error.
Proof.
  unfold convert_pixel, load. destruct (fb !! _); cbn; [|discriminate].
  destruct (store px _ _) as [p1| |] eqn:H1; cbn;
    [|exact (fun _ => store_not_thrown _ _ _ H1)|discriminate].
  destruct (store p1 _ _) as [p2| |] eqn:H2; cbn;
    [|exact (fun _ => store_not_thrown _ _ _ H2)|discriminate].
  apply store_not_thrown.
Qed.

(** X20: a framebuffer with fewer than [width * height] entries is read
    past its end: the call has undefined behaviour, it is not rejected. *)
Theorem convert_framebuffer_to_pixels_short (fb : list Vec3f) width height :
  (0 <= width <= int_max)%Z -> (0 <= height <= int_max)%Z ->
  (width * height * 3 <= int_max)%Z ->
  (length fb < Z.to_nat (width * height))%nat ->
  convert_framebuffer_to_pixels fb width height = Undefined.
Proof.
  intros Hw Hh Hwh Hlen. unfold int_max in *.
  assert (0 <= width * height)%Z as Hnn by (apply Z.mul_nonneg_nonneg; lia).
  unfold convert_framebuffer_to_pixels.
  rewrite int_mul_in_range by (unfold int_min, int_max; lia). cbn.
  rewrite int_mul_in_range by (unfold int_min, int_max; lia). cbn.
  rewrite vector_new_fits by (try (change ((2 ^ 63 - 1) `div` 1)%Z with 9223372036854775807%Z); lia).
  cbn.
  rewrite <- (for_each_nested (loop_range height) (loop_range width)
                (fun ji px => convert_pixel fb width ji.1 ji.2 px)).
  fold (iteration_space width height).
  destruct (cell_of_index width height (Z.of_nat (length fb))) as (Hi & Hj & Hk); [lia | lia |].
  set (i := (Z.of_nat (length fb) `mod` width)%Z) in *.
  set (j := (Z.of_nat (length fb) `div` width)%Z) in *.
  apply (for_each_fails (fun _ => True) _ _ (j, i)).
  - intros [j' i'] px. apply convert_pixel_not_thrown.
  - trivial.
  - intros px _. cbn [fst snd]. unfold convert_pixel, load.
    rewrite (to_size_t_small width) by lia.
    rewrite (to_size_t_small (i + j * width)) by lia.
    rewrite <- Hk, Nat2Z.id. rewrite lookup_ge_None_2 by lia. reflexivity.
  - apply elem_of_iteration_space; lia.
  - exact I.
Qed.

Lemma convert_framebuffer_to_pixels_short_witness :
  convert_framebuffer_to_pixels sample_frame 3 1 = Undefined.
Proof.
  apply (convert_framebuffer_to_pixels_short sample_frame 3 1);
    unfold int_max; try lia. cbn. lia.
Defined.

(** X21: a negative [width * height] makes the size of the pixel buffer
    negative, and the call leaves through the [std::length_error] of the
    vector constructor without reading the framebuffer. *)
Theorem convert_framebuffer_to_pixels_negative (fb : list Vec3f) width height :
  (int_min <= width * height * 3)%Z -> (width * height < 0)%Z ->
  convert_framebuffer_to_pixels fb width height = Thrown_length_error.
Proof.
  intros Hlo Hneg. unfold int_min, int_max in *.
  unfold convert_framebuffer_to_pixels.
  rewrite int_mul_in_range by (unfold int_min, int_max; lia). cbn.
  rewrite int_mul_in_range by (unfold int_min, int_max; lia). cbn.
  rewrite vector_new_negative by (unfold int_min; lia). reflexivity.
Qed.

Lemma convert_framebuffer_to_pixels_negative_witness :
  convert_framebuffer_to_pixels sample_frame (-2) 1 = Thrown_length_error.
Proof.
  apply (convert_framebuffer_to_pixels_negative sample_frame (-2) 1);
    unfold int_min; lia.
Defined.

(** *** render_framebuffer under an arbitrary schedule *)

(** X22: each iteration of the parallel loop writes its own cell and no
    other, and writes the same value however often it runs: for any list of
    iterations inside the image, repeated or incomplete, the framebuffer
    holds the pixel's colour in every cell whose iteration was run and the
    initial (0, 0, 0) in every other cell. *)
Theorem render_framebuffer_omp_cells sched width height fov :
  (0 <= width <= int_max)%Z -> (0 <= height <= int_max)%Z ->
  (width * height <= int_max)%Z ->
  (forall j i, (j, i) ∈ sched -> (0 <= j < height)%Z /\ (0 <= i < width)%Z) ->
  exists fb, render_framebuffer_omp sched width height fov = Returned fb /\
    length fb = Z.to_nat (width * height) /\
    forall i j, (0 <= i < width)%Z -> (0 <= j < height)%Z ->
      fb !! Z.to_nat (i + j * width)
      = Some (if decide ((j, i) ∈ sched) then pixel_color width height fov i j
              else vec3f_zero).
Proof.
  intros Hw Hh Hwh Hmem. unfold int_max in *.
  assert (0 <= width * height)%Z as Hnn by (apply Z.mul_nonneg_nonneg; lia).
  unfold render_framebuffer_omp.
  rewrite int_mul_in_range by (unfold int_min, int_max; lia). cbn.
  rewrite vector_new_fits by (try (change ((2 ^ 63 - 1) `div` 12)%Z with 768614336404564650%Z); lia).
  cbn.
  set (buf := replicate (Z.to_nat (width * height)) vec3f_zero).
  set (W := fun ji : Z * Z =>
              [(to_size_t (ji.2 + ji.1 * to_size_t width),
                pixel_color width height fov ji.2 ji.1)]).
  rewrite (for_each_as_writes sched _ W).
  2:{ intros ji b _. unfold W, apply_writes, render_pixel. cbn. symmetry. apply outcome_bind_ret. }
  assert (Hidx : forall j i, (j, i) ∈ sched ->
            to_size_t (i + j * to_size_t width) = (i + j * width)%Z).
  { intros j i Hin. destruct (Hmem j i Hin) as [Hj Hi].
    pose proof (cell_index_bound width height i j Hi Hj).
    rewrite (to_size_t_small width) by lia. apply to_size_t_small. lia. }
  assert (HW : forall w, w ∈ sched ≫= W ->
            exists j i, (j, i) ∈ sched /\ w = ((i + j * width)%Z, pixel_color width height fov i j)).
  { intros w Hin. apply list_elem_of_bind in Hin as ([j i] & Hin & Hji).
    apply list_elem_of_singleton in Hin as ->. exists j, i. split; [exact Hji|].
    unfold W. cbn [fst snd]. rewrite (Hidx j i Hji). reflexivity. }
  destruct (apply_writes_spec (sched ≫= W) buf) as (buf' & Hret & Hlen & Hset & Hkeep).
  - apply Forall_forall. intros w Hin. destruct (HW w Hin) as (j & i & Hji & ->).
    destruct (Hmem j i Hji) as [Hj Hi].
    pose proof (cell_index_bound width height i j Hi Hj).
    cbn [fst]. unfold buf. rewrite length_replicate. lia.
  - intros a b Ha Hb.
    destruct (HW a Ha) as (j & i & Hji & ->). destruct (HW b Hb) as (j' & i' & Hji' & ->).
    cbn [fst snd]. destruct (Hmem j i Hji) as [Hj Hi]. destruct (Hmem j' i' Hji') as [Hj' Hi'].
    pose proof (cell_index_bound width height i j Hi Hj).
    pose proof (cell_index_bound width height i' j' Hi' Hj').
    intros Heq. apply Z2Nat.inj in Heq; [|lia|lia].
    destruct (cell_index_inj width i j i' j') as [-> ->]; try lia. reflexivity.
  - exists buf'. split; [exact Hret|]. split.
    { rewrite Hlen. unfold buf. apply length_replicate. }
    intros i j Hi Hj. pose proof (cell_index_bound width height i j Hi Hj) as Hb.
    destruct (decide ((j, i) ∈ sched)) as [Hin|Hout].
    + rewrite <- (Hidx j i Hin).
      apply (Hset (to_size_t (i + j * to_size_t width), pixel_color width height fov i j)).
      apply list_elem_of_bind. exists (j, i). split; [|exact Hin].
      apply list_elem_of_singleton. reflexivity.
    + rewrite Hkeep.
      * unfold buf. apply lookup_replicate_2. lia.
      * intros w Hw' Heq. destruct (HW w Hw') as (j' & i' & Hji' & ->). cbn [fst] in Heq.
        destruct (Hmem j' i' Hji') as [Hj' Hi'].
        pose proof (cell_index_bound width height i' j' Hi' Hj').
        apply Z2Nat.inj in Heq; [|lia|lia].
        destruct (cell_index_inj width i j i' j') as [-> ->]; try lia. contradiction.
Qed.

Lemma render_framebuffer_omp_cells_witness :
  exists fb, render_framebuffer_omp [(0, 1); (0, 1)]%Z 2 1 (PI / 3) = Returned fb /\
    length fb = Z.to_nat (2 * 1) /\
    forall i j, (0 <= i < 2)%Z -> (0 <= j < 1)%Z ->
      fb !! Z.to_nat (i + j * 2)
      = Some (if decide ((j, i) ∈ [(0, 1); (0, 1)]%Z) then pixel_color 2 1 (PI / 3) i j
              else vec3f_zero).
Proof.
  apply (render_framebuffer_omp_cells [(0, 1); (0, 1)]%Z 2 1 (PI / 3));
    try (unfold int_max; lia).
  intros j i Hin.
  repeat (apply elem_of_cons in Hin as [[= -> ->]|Hin]); try lia.
  inversion Hin.
Defined.
